(** * The CSS selector builder of [src/objects-tasks.js]

    A shallow embedding of the [Selector] class and of the
    [cssSelectorBuilder] facade.  Selector objects are mutable and are shared
    by reference ([combine] stores its two arguments, it does not copy them),
    so the embedding threads an explicit object store through every method:
    a finite map from locations to [Selector] records.  Methods are
    computations in a small state-and-exception monad over that store. *)

From Stdlib Require Import ZArith Sorted.
From stdpp Require Import base gmap strings list fin_maps.

(** ** Objects and the store *)

Definition loc := nat.

(** The fields assigned by [constructor()], in the order of the source. *)
Record Selector := mkSelector {
  elementValue : string;
  idValue : string;
  classValues : list string;
  attrValues : list string;
  pseudoClassValues : list string;
  pseudoElementValue : string;
  combinator : string;
  selectors : list loc;
  elementCount : Z;
  idCount : Z;
  pseudoElementCount : Z;
  hasElement : bool;
  hasId : bool;
  hasPseudoElement : bool;
}.

Abbreviation heap := (gmap loc Selector).

(** [new Selector()]: the record the constructor builds. *)
Definition constructor : Selector :=
  {| elementValue := ""; idValue := ""; classValues := []; attrValues := [];
     pseudoClassValues := []; pseudoElementValue := ""; combinator := "";
     selectors := []; elementCount := 0; idCount := 0; pseudoElementCount := 0;
     hasElement := false; hasId := false; hasPseudoElement := false |}.

(** Field assignments [this.f = v]. *)
Definition set_elementValue (v : string) (s : Selector) : Selector :=
  {| elementValue := v; idValue := idValue s; classValues := classValues s;
     attrValues := attrValues s; pseudoClassValues := pseudoClassValues s;
     pseudoElementValue := pseudoElementValue s; combinator := combinator s;
     selectors := selectors s; elementCount := elementCount s;
     idCount := idCount s; pseudoElementCount := pseudoElementCount s;
     hasElement := hasElement s; hasId := hasId s;
     hasPseudoElement := hasPseudoElement s |}.

Definition set_hasElement (v : bool) (s : Selector) : Selector :=
  {| elementValue := elementValue s; idValue := idValue s;
     classValues := classValues s; attrValues := attrValues s;
     pseudoClassValues := pseudoClassValues s;
     pseudoElementValue := pseudoElementValue s; combinator := combinator s;
     selectors := selectors s; elementCount := elementCount s;
     idCount := idCount s; pseudoElementCount := pseudoElementCount s;
     hasElement := v; hasId := hasId s;
     hasPseudoElement := hasPseudoElement s |}.

Definition set_idValue (v : string) (s : Selector) : Selector :=
  {| elementValue := elementValue s; idValue := v; classValues := classValues s;
     attrValues := attrValues s; pseudoClassValues := pseudoClassValues s;
     pseudoElementValue := pseudoElementValue s; combinator := combinator s;
     selectors := selectors s; elementCount := elementCount s;
     idCount := idCount s; pseudoElementCount := pseudoElementCount s;
     hasElement := hasElement s; hasId := hasId s;
     hasPseudoElement := hasPseudoElement s |}.

Definition set_hasId (v : bool) (s : Selector) : Selector :=
  {| elementValue := elementValue s; idValue := idValue s;
     classValues := classValues s; attrValues := attrValues s;
     pseudoClassValues := pseudoClassValues s;
     pseudoElementValue := pseudoElementValue s; combinator := combinator s;
     selectors := selectors s; elementCount := elementCount s;
     idCount := idCount s; pseudoElementCount := pseudoElementCount s;
     hasElement := hasElement s; hasId := v;
     hasPseudoElement := hasPseudoElement s |}.

Definition set_classValues (v : list string) (s : Selector) : Selector :=
  {| elementValue := elementValue s; idValue := idValue s; classValues := v;
     attrValues := attrValues s; pseudoClassValues := pseudoClassValues s;
     pseudoElementValue := pseudoElementValue s; combinator := combinator s;
     selectors := selectors s; elementCount := elementCount s;
     idCount := idCount s; pseudoElementCount := pseudoElementCount s;
     hasElement := hasElement s; hasId := hasId s;
     hasPseudoElement := hasPseudoElement s |}.

Definition set_attrValues (v : list string) (s : Selector) : Selector :=
  {| elementValue := elementValue s; idValue := idValue s;
     classValues := classValues s; attrValues := v;
     pseudoClassValues := pseudoClassValues s;
     pseudoElementValue := pseudoElementValue s; combinator := combinator s;
     selectors := selectors s; elementCount := elementCount s;
     idCount := idCount s; pseudoElementCount := pseudoElementCount s;
     hasElement := hasElement s; hasId := hasId s;
     hasPseudoElement := hasPseudoElement s |}.

Definition set_pseudoClassValues (v : list string) (s : Selector) : Selector :=
  {| elementValue := elementValue s; idValue := idValue s;
     classValues := classValues s; attrValues := attrValues s;
     pseudoClassValues := v;
     pseudoElementValue := pseudoElementValue s; combinator := combinator s;
     selectors := selectors s; elementCount := elementCount s;
     idCount := idCount s; pseudoElementCount := pseudoElementCount s;
     hasElement := hasElement s; hasId := hasId s;
     hasPseudoElement := hasPseudoElement s |}.

Definition set_pseudoElementValue (v : string) (s : Selector) : Selector :=
  {| elementValue := elementValue s; idValue := idValue s;
     classValues := classValues s; attrValues := attrValues s;
     pseudoClassValues := pseudoClassValues s;
     pseudoElementValue := v; combinator := combinator s;
     selectors := selectors s; elementCount := elementCount s;
     idCount := idCount s; pseudoElementCount := pseudoElementCount s;
     hasElement := hasElement s; hasId := hasId s;
     hasPseudoElement := hasPseudoElement s |}.

Definition set_hasPseudoElement (v : bool) (s : Selector) : Selector :=
  {| elementValue := elementValue s; idValue := idValue s;
     classValues := classValues s; attrValues := attrValues s;
     pseudoClassValues := pseudoClassValues s;
     pseudoElementValue := pseudoElementValue s; combinator := combinator s;
     selectors := selectors s; elementCount := elementCount s;
     idCount := idCount s; pseudoElementCount := pseudoElementCount s;
     hasElement := hasElement s; hasId := hasId s;
     hasPseudoElement := v |}.

Definition set_combinator (v : string) (s : Selector) : Selector :=
  {| elementValue := elementValue s; idValue := idValue s;
     classValues := classValues s; attrValues := attrValues s;
     pseudoClassValues := pseudoClassValues s;
     pseudoElementValue := pseudoElementValue s; combinator := v;
     selectors := selectors s; elementCount := elementCount s;
     idCount := idCount s; pseudoElementCount := pseudoElementCount s;
     hasElement := hasElement s; hasId := hasId s;
     hasPseudoElement := hasPseudoElement s |}.

Definition set_selectors (v : list loc) (s : Selector) : Selector :=
  {| elementValue := elementValue s; idValue := idValue s;
     classValues := classValues s; attrValues := attrValues s;
     pseudoClassValues := pseudoClassValues s;
     pseudoElementValue := pseudoElementValue s; combinator := combinator s;
     selectors := v; elementCount := elementCount s;
     idCount := idCount s; pseudoElementCount := pseudoElementCount s;
     hasElement := hasElement s; hasId := hasId s;
     hasPseudoElement := hasPseudoElement s |}.

(** ** Exceptions and the monad *)

(** [throw new Error(message)], and the [TypeError] the runtime raises when a
    member of [undefined] is used. *)
Inductive exn :=
  | Error (message : string)
  | TypeError.

(** The two messages of the source. *)
Definition DuplicateSelectorPart : exn :=
  Error "Element, id and pseudo-element should not occur more then one time inside the selector".

Definition OutOfOrder : exn :=
  Error "Selector parts should be arranged in the following order: element, id, class, attribute, pseudo-class, pseudo-element".

(** The outcome of a computation: a value or an exception, each with the store
    at that point, or the recursion budget of [stringify] exhausted. *)
Inductive result (A : Type) :=
  | Ok (a : A) (h : heap)
  | Throw (e : exn) (h : heap)
  | OutOfFuel.
Arguments Ok {A} a h.
Arguments Throw {A} e h.
Arguments OutOfFuel {A}.

Definition M (A : Type) : Type := heap → result A.

Definition ret {A} (a : A) : M A := λ h, Ok a h.

Definition bind {A B} (m : M A) (k : A → M B) : M B :=
  λ h, match m h with
       | Ok a h' => k a h'
       | Throw e h' => Throw e h'
       | OutOfFuel => OutOfFuel
       end.

Definition throw {A} (e : exn) : M A := λ h, Throw e h.

#[global] Instance M_ret : MRet M := @ret.
#[global] Instance M_bind : MBind M := λ A B k m, bind m k.

(** [try { m } catch (e) { }]: the caller swallows the exception. *)
Definition try_catch {A} (m : M A) : M (option A) :=
  λ h, match m h with
       | Ok a h' => Ok (Some a) h'
       | Throw _ h' => Ok None h'
       | OutOfFuel => OutOfFuel
       end.

(** [new Selector()] allocates an object at an unused location. *)
Definition new_Selector : M loc :=
  λ h, let l := fresh (dom h) in Ok l (<[l := constructor]> h).

(** [this.f]: reading a field of the object at [this]. *)
Definition get {A} (f : Selector → A) (this : loc) : M A :=
  λ h, match h !! this with
       | Some s => Ok (f s) h
       | None => Throw TypeError h
       end.

(** [this.f = v], through one of the setters above. *)
Definition put (f : Selector → Selector) (this : loc) : M unit :=
  λ h, match h !! this with
       | Some s => Ok tt (<[this := f s]> h)
       | None => Throw TypeError h
       end.

(** [a[i]] followed by a member access: an index out of range yields
    [undefined], whose member access raises [TypeError]. *)
Definition index (a : list loc) (i : nat) : M loc :=
  match a !! i with
  | Some l => ret l
  | None => throw TypeError
  end.

(** Truthiness of a number and of a string. *)
Definition truthy_num (n : nat) : bool := negb (n =? 0).
Definition truthy_str (s : string) : bool := negb (String.eqb s "").

(** [xs.map(f).join('')] *)
Definition map_join (f : string → string) (xs : list string) : string :=
  String.concat "" (map f xs).

(** ** The methods of [class Selector] *)

Module Selector.

Definition element (this : loc) (value : string) : M loc :=
  b ← get hasElement this;
  if b : bool then throw DuplicateSelectorPart else
  hid ← get hasId this;
  cs ← get classValues this;
  ats ← get attrValues this;
  pcs ← get pseudoClassValues this;
  hpe ← get hasPseudoElement this;
  if hid || truthy_num (length cs) || truthy_num (length ats)
     || truthy_num (length pcs) || hpe
  then throw OutOfOrder else
  put (set_elementValue value) this;;
  put (set_hasElement true) this;;
  mret this.

Definition id (this : loc) (value : string) : M loc :=
  b ← get hasId this;
  if b : bool then throw DuplicateSelectorPart else
  cs ← get classValues this;
  ats ← get attrValues this;
  pcs ← get pseudoClassValues this;
  hpe ← get hasPseudoElement this;
  if truthy_num (length cs) || truthy_num (length ats)
     || truthy_num (length pcs) || hpe
  then throw OutOfOrder else
  put (set_idValue value) this;;
  put (set_hasId true) this;;
  mret this.

Definition class (this : loc) (value : string) : M loc :=
  ats ← get attrValues this;
  pcs ← get pseudoClassValues this;
  hpe ← get hasPseudoElement this;
  if truthy_num (length ats) || truthy_num (length pcs) || hpe
  then throw OutOfOrder else
  cs ← get classValues this;
  put (set_classValues (cs ++ [value])) this;;
  mret this.

Definition attr (this : loc) (value : string) : M loc :=
  pcs ← get pseudoClassValues this;
  hpe ← get hasPseudoElement this;
  if truthy_num (length pcs) || hpe
  then throw OutOfOrder else
  ats ← get attrValues this;
  put (set_attrValues (ats ++ [value])) this;;
  mret this.

Definition pseudoClass (this : loc) (value : string) : M loc :=
  hpe ← get hasPseudoElement this;
  if hpe : bool then throw OutOfOrder else
  pcs ← get pseudoClassValues this;
  put (set_pseudoClassValues (pcs ++ [value])) this;;
  mret this.

Definition pseudoElement (this : loc) (value : string) : M loc :=
  hpe ← get hasPseudoElement this;
  if hpe : bool then throw DuplicateSelectorPart else
  put (set_pseudoElementValue value) this;;
  put (set_hasPseudoElement true) this;;
  mret this.

Definition combine (this : loc) (selector1 : loc) (combinator : string)
    (selector2 : loc) : M loc :=
  put (set_selectors [selector1; selector2]) this;;
  put (set_combinator combinator) this;;
  mret this.

(** [stringify] calls itself on the stored sub-selectors, which are
    references into the store; the recursion is bounded by [fuel]. *)
Fixpoint stringify (fuel : nat) (this : loc) : M string :=
  match fuel with
  | 0 => λ _, OutOfFuel
  | S fuel' =>
    let selectorString := "" in
    sels ← get selectors this;
    if truthy_num (length sels) then
      sels ← get selectors this;
      s0 ← index sels 0;
      lhs ← stringify fuel' s0;
      c ← get combinator this;
      sels ← get selectors this;
      s1 ← index sels 1;
      rhs ← stringify fuel' s1;
      mret (lhs +:+ " " +:+ c +:+ " " +:+ rhs)
    else
      ev ← get elementValue this;
      selectorString ←
        (if truthy_str ev
         then ev ← get elementValue this; mret (selectorString +:+ ev)
         else mret selectorString);
      iv ← get idValue this;
      selectorString ←
        (if truthy_str iv
         then iv ← get idValue this; mret (selectorString +:+ ("#" +:+ iv))
         else mret selectorString);
      cs ← get classValues this;
      selectorString ←
        (if truthy_num (length cs)
         then cs ← get classValues this;
              mret (selectorString +:+ map_join (λ c, "." +:+ c) cs)
         else mret selectorString);
      ats ← get attrValues this;
      selectorString ←
        (if truthy_num (length ats)
         then ats ← get attrValues this;
              mret (selectorString +:+ map_join (λ a, "[" +:+ a +:+ "]") ats)
         else mret selectorString);
      pcs ← get pseudoClassValues this;
      selectorString ←
        (if truthy_num (length pcs)
         then pcs ← get pseudoClassValues this;
              mret (selectorString +:+ map_join (λ p, ":" +:+ p) pcs)
         else mret selectorString);
      pv ← get pseudoElementValue this;
      selectorString ←
        (if truthy_str pv
         then pv ← get pseudoElementValue this;
              mret (selectorString +:+ ("::" +:+ pv))
         else mret selectorString);
      mret selectorString
  end.

End Selector.

(** ** The facade [cssSelectorBuilder] *)

Module cssSelectorBuilder.

Definition element (value : string) : M loc :=
  selector ← new_Selector; Selector.element selector value.

Definition id (value : string) : M loc :=
  selector ← new_Selector; Selector.id selector value.

Definition class (value : string) : M loc :=
  selector ← new_Selector; Selector.class selector value.

Definition attr (value : string) : M loc :=
  selector ← new_Selector; Selector.attr selector value.

Definition pseudoClass (value : string) : M loc :=
  selector ← new_Selector; Selector.pseudoClass selector value.

Definition pseudoElement (value : string) : M loc :=
  selector ← new_Selector; Selector.pseudoElement selector value.

Definition combine (selector1 : loc) (combinator : string) (selector2 : loc)
    : M loc :=
  selector ← new_Selector;
  Selector.combine selector selector1 combinator selector2.

End cssSelectorBuilder.

(** ** Calls by category *)

(** The six selector parts, in the order the source's error message lists
    them. *)
Inductive part := Element | Id | Class | Attr | PseudoClass | PseudoElement.

#[global] Instance part_eq_dec : EqDecision part.
Proof. solve_decision. Defined.

Definition rank (p : part) : nat :=
  match p with
  | Element => 0 | Id => 1 | Class => 2
  | Attr => 3 | PseudoClass => 4 | PseudoElement => 5
  end.

(** [this.p(value)] on an existing node. *)
Definition Selector_part (p : part) (this : loc) (value : string) : M loc :=
  match p with
  | Element => Selector.element this value
  | Id => Selector.id this value
  | Class => Selector.class this value
  | Attr => Selector.attr this value
  | PseudoClass => Selector.pseudoClass this value
  | PseudoElement => Selector.pseudoElement this value
  end.

(** [cssSelectorBuilder.p(value)]. *)
Definition builder_part (p : part) (value : string) : M loc :=
  match p with
  | Element => cssSelectorBuilder.element value
  | Id => cssSelectorBuilder.id value
  | Class => cssSelectorBuilder.class value
  | Attr => cssSelectorBuilder.attr value
  | PseudoClass => cssSelectorBuilder.pseudoClass value
  | PseudoElement => cssSelectorBuilder.pseudoElement value
  end.

(** A method chain [this.p1(v1).p2(v2)...]: each call's receiver is the value
    the previous call returned. *)
Fixpoint chain (this : loc) (ps : list (part * string)) : M loc :=
  match ps with
  | [] => mret this
  | (p, v) :: ps' => this' ← Selector_part p this v; chain this' ps'
  end.

(** A node built from scratch by a chain of part calls. *)
Definition build (ps : list (part * string)) : M loc :=
  selector ← new_Selector; chain selector ps.

(** What the node itself records about a category having been supplied: the
    conditions the methods test. *)
Definition supplied (s : Selector) (p : part) : bool :=
  match p with
  | Element => hasElement s
  | Id => hasId s
  | Class => truthy_num (length (classValues s))
  | Attr => truthy_num (length (attrValues s))
  | PseudoClass => truthy_num (length (pseudoClassValues s))
  | PseudoElement => hasPseudoElement s
  end.

(** The parts that may occur once. *)
Definition single_use (p : part) : bool :=
  match p with
  | Element | Id | PseudoElement => true
  | _ => false
  end.

(** Forgetting the store of a result. *)
Inductive outcome (A : Type) :=
  | Returns (a : A)
  | Throws (e : exn)
  | Exhausted.
Arguments Returns {A} a.
Arguments Throws {A} e.
Arguments Exhausted {A}.

Definition outcome_of {A} (r : result A) : outcome A :=
  match r with
  | Ok a _ => Returns a
  | Throw e _ => Throws e
  | OutOfFuel => Exhausted
  end.

(** [this.stringify()] returns [s]. *)
Definition renders_to (h : heap) (this : loc) (s : string) : Prop :=
  ∃ fuel, Selector.stringify fuel this h = Ok s h.

(** ** The rendering rule as the specification words it *)

(** The values supplied for one category, in call order. *)
Definition values_of (p : part) (ps : list (part * string)) : list string :=
  (filter (λ x, x.1 = p) ps).*2.

(** The value of a single-use category, if it was set. *)
Definition value_of (p : part) (ps : list (part * string)) : option string :=
  head (values_of p ps).

Definition if_set (prefix : string) (o : option string) : string :=
  match o with
  | Some v => prefix +:+ v
  | None => ""
  end.

(** element (if set) + '#' + id (if set) + '.' + c for each class + '[' + a +
    ']' for each attribute + ':' + p for each pseudo-class + '::' +
    pseudoElement (if set). *)
Definition spec_render (ps : list (part * string)) : string :=
  if_set "" (value_of Element ps)
  +:+ if_set "#" (value_of Id ps)
  +:+ String.concat "" (map (λ c, "." +:+ c) (values_of Class ps))
  +:+ String.concat "" (map (λ a, "[" +:+ a +:+ "]") (values_of Attr ps))
  +:+ String.concat "" (map (λ p, ":" +:+ p) (values_of PseudoClass ps))
  +:+ if_set "::" (value_of PseudoElement ps).

(** The same rule, where a single-use part contributes only when it was set
    to a non-empty string. *)
Definition if_set_nonempty (prefix : string) (o : option string) : string :=
  match o with
  | Some v => if truthy_str v then prefix +:+ v else ""
  | None => ""
  end.

Definition render (ps : list (part * string)) : string :=
  if_set_nonempty "" (value_of Element ps)
  +:+ if_set_nonempty "#" (value_of Id ps)
  +:+ String.concat "" (map (λ c, "." +:+ c) (values_of Class ps))
  +:+ String.concat "" (map (λ a, "[" +:+ a +:+ "]") (values_of Attr ps))
  +:+ String.concat "" (map (λ p, ":" +:+ p) (values_of PseudoClass ps))
  +:+ if_set_nonempty "::" (value_of PseudoElement ps).


(** ** Stores the API can build *)

(** The sub-selector references below [this] form a finite tree of existing
    objects. *)
Inductive finite (h : heap) : loc → Prop :=
  | finite_simple this s :
      h !! this = Some s → selectors s = [] → finite h this
  | finite_combined this s a b :
      h !! this = Some s →
      selectors s !! 0 = Some a → selectors s !! 1 = Some b →
      finite h a → finite h b → finite h this.

(** The stores a client reaches through the facade's seven entry points and
    through part calls chained on the nodes they return.  ([combine] is
    reached through the facade, which is how the source's documentation uses
    it; a failed call changes nothing and so adds no case.) *)
Inductive built : heap → Prop :=
  | built_empty : built ∅
  | built_new p v h l h' :
      built h → builder_part p v h = Ok l h' → built h'
  | built_part p this v h l h' :
      built h → Selector_part p this v h = Ok l h' → built h'
  | built_combine a c b h l h' :
      built h → is_Some (h !! a) → is_Some (h !! b) →
      cssSelectorBuilder.combine a c b h = Ok l h' → built h'.

(** ** The methods' guards and mutations, tabulated *)

(** The categories after [p] in the required order. *)
Definition later_parts (p : part) : list part :=
  List.filter (λ q, rank p <? rank q)
    [Element; Id; Class; Attr; PseudoClass; PseudoElement].

(** The exception with which [this.p(value)] leaves, if any, on an object in
    state [s]: the two [if]s that open each method ([part_run] below proves
    the table against the methods). *)
Definition guard (p : part) (s : Selector) : option exn :=
  if single_use p && supplied s p then Some DuplicateSelectorPart
  else if existsb (supplied s) (later_parts p) then Some OutOfOrder
  else None.

(** The assignments [this.p(value)] makes when it does not throw. *)
Definition mutate (p : part) (v : string) (s : Selector) : Selector :=
  match p with
  | Element => set_hasElement true (set_elementValue v s)
  | Id => set_hasId true (set_idValue v s)
  | Class => set_classValues (classValues s ++ [v]) s
  | Attr => set_attrValues (attrValues s ++ [v]) s
  | PseudoClass => set_pseudoClassValues (pseudoClassValues s ++ [v]) s
  | PseudoElement => set_hasPseudoElement true (set_pseudoElementValue v s)
  end.

(** The effect of a chain on its receiver: the state it reaches, and the
    exception that stopped it, if one did. *)
Fixpoint play (ps : list (part * string)) (s : Selector)
    : option exn * Selector :=
  match ps with
  | [] => (None, s)
  | (p, v) :: ps' =>
    match guard p s with
    | Some e => (Some e, s)
    | None => play ps' (mutate p v s)
    end
  end.

(** ** Client programs *)

(** One call of the API. *)
Inductive call :=
  | CallPart (this : loc) (p : part) (value : string)
  | NewPart (p : part) (value : string)
  | CallCombine (this selector1 : loc) (c : string) (selector2 : loc)
  | NewCombine (selector1 : loc) (c : string) (selector2 : loc)
  | CallStringify (fuel : nat) (this : loc).

(** The call, made inside a [try] whose [catch] ignores the exception. *)
Definition perform (c : call) : M unit :=
  match c with
  | CallPart this p v => try_catch (Selector_part p this v);; mret ()
  | NewPart p v => try_catch (builder_part p v);; mret ()
  | CallCombine this a c b => try_catch (Selector.combine this a c b);; mret ()
  | NewCombine a c b => try_catch (cssSelectorBuilder.combine a c b);; mret ()
  | CallStringify fuel this => try_catch (Selector.stringify fuel this);; mret ()
  end.

Fixpoint run (cs : list call) : M unit :=
  match cs with
  | [] => mret ()
  | c :: cs' => perform c;; run cs'
  end.

(** ** Rendering, unfolded *)

(** What [stringify] returns for an object without stored sub-selectors. *)
Definition render_fields (s : Selector) : string :=
  let selectorString := "" in
  let selectorString :=
    if truthy_str (elementValue s) then selectorString +:+ elementValue s
    else selectorString in
  let selectorString :=
    if truthy_str (idValue s) then selectorString +:+ ("#" +:+ idValue s)
    else selectorString in
  let selectorString :=
    if truthy_num (length (classValues s))
    then selectorString +:+ map_join (λ c, "." +:+ c) (classValues s)
    else selectorString in
  let selectorString :=
    if truthy_num (length (attrValues s))
    then selectorString +:+ map_join (λ a, "[" +:+ a +:+ "]") (attrValues s)
    else selectorString in
  let selectorString :=
    if truthy_num (length (pseudoClassValues s))
    then selectorString +:+ map_join (λ p, ":" +:+ p) (pseudoClassValues s)
    else selectorString in
  let selectorString :=
    if truthy_str (pseudoElementValue s)
    then selectorString +:+ ("::" +:+ pseudoElementValue s)
    else selectorString in
  selectorString.

(** One unfolding of [stringify], with the store threaded away
    ([stringify_S] below proves it against the method). *)
Definition stringify_step (rec : loc → heap → result string) (this : loc)
    (h : heap) : result string :=
  match h !! this with
  | None => Throw TypeError h
  | Some s =>
    if truthy_num (length (selectors s)) then
      match selectors s !! 0 with
      | None => Throw TypeError h
      | Some s0 =>
        match rec s0 h with
        | Ok lhs _ =>
          match selectors s !! 1 with
          | None => Throw TypeError h
          | Some s1 =>
            match rec s1 h with
            | Ok rhs _ =>
                Ok (lhs +:+ " " +:+ combinator s +:+ " " +:+ rhs) h
            | Throw e _ => Throw e h
            | OutOfFuel => OutOfFuel
            end
          end
        | Throw e _ => Throw e h
        | OutOfFuel => OutOfFuel
        end
      end
    else Ok (render_fields s) h
  end.

(** A string's contribution when it is truthy. *)
Definition if_nonempty (pre v : string) : string :=
  if truthy_str v then pre +:+ v else "".


(** ** Objects and a store for the examples *)

(** [element('tr')] at 0 and [element('td')] at 1. *)
Definition tr_td : heap :=
  <[1 := mutate Element "td" constructor]>
    (<[0 := mutate Element "tr" constructor]> ∅).

(** The object of [element('a').id('').class('b').class('')]. *)
Definition a_b : Selector :=
  mutate Class "" (mutate Class "b" (mutate Id "" (mutate Element "a" constructor))).

(** [element('tr')] at 0 and [id('main').class('container')] at 1, and the
    object at 1 after a further [class('editable')]. *)
Definition main_container : heap :=
  <[1 := mutate Class "container" (mutate Id "main" constructor)]>
    (<[0 := mutate Element "tr" constructor]> ∅).

Definition main_container_editable : Selector :=
  mutate Class "editable"
    (mutate Class "container" (mutate Id "main" constructor)).

(** [tr_td] with a node [element('x')] at 2; after [combine] on that node of
    nodes 0 and 1; and after [class('y')] and [pseudoElement('z')] on it. *)
Definition x_node : heap := <[2 := mutate Element "x" constructor]> tr_td.

Definition x_combined : heap :=
  <[2 := set_combinator ">" (set_selectors [0; 1]
            (mutate Element "x" constructor))]> tr_td.

Definition x_combined_parts : heap :=
  <[2 := mutate PseudoElement "z" (mutate Class "y"
            (set_combinator ">" (set_selectors [0; 1]
               (mutate Element "x" constructor))))]> tr_td.


(** What later calls keep of an object: it still exists, and every category
    it records as supplied is still recorded. *)
Definition grows (h h' : heap) : Prop :=
  ∀ l s, h !! l = Some s →
    ∃ s', h' !! l = Some s' ∧ ∀ q, supplied s q = true → supplied s' q = true.

(** * The other exercises of [objects-tasks.js] *)

(** ** [sellTickets] *)

(** The [for] loop of [sellTickets] over the rest of the queue, from the
    values the two counters hold; [false] is one of the early returns.  Bills
    are integers; the counters only count, so they are integers too. *)
Fixpoint sellTickets_loop (twentyFives fifties : Z) (queue : list Z) : bool :=
  match queue with
  | [] => true
  | bill :: queue' =>
    if (bill =? 25)%Z then sellTickets_loop (twentyFives + 1) fifties queue'
    else if (bill =? 50)%Z then
      if (twentyFives =? 0)%Z then false
      else sellTickets_loop (twentyFives - 1) (fifties + 1) queue'
    else if (bill =? 100)%Z then
      if (0 <? twentyFives)%Z && (0 <? fifties)%Z
      then sellTickets_loop (twentyFives - 1) (fifties - 1) queue'
      else if (3 <=? twentyFives)%Z
      then sellTickets_loop (twentyFives - 3) fifties queue'
      else false
    else sellTickets_loop twentyFives fifties queue'
  end.

Definition sellTickets (queue : list Z) : bool := sellTickets_loop 0 0 queue.

(** What the documentation of [sellTickets] asks for: the queue can be served
    in order from a till holding [a] bills of 25 and [b] bills of 50, each
    customer paying 25 for the ticket and receiving the change in bills of
    the till, by some choice of bills.  (A bill of 100 is never change.) *)
Inductive serves : Z → Z → list Z → Prop :=
  | serves_nil a b : serves a b []
  | serves_25 a b q : serves (a + 1) b q → serves a b (25%Z :: q)
  | serves_50 a b q :
      (0 < a)%Z → serves (a - 1) (b + 1) q → serves a b (50%Z :: q)
  | serves_100_with_50 a b q :
      (0 < a)%Z → (0 < b)%Z → serves (a - 1) (b - 1) q →
      serves a b (100%Z :: q)
  | serves_100_with_25s a b q :
      (3 ≤ a)%Z → serves (a - 3) b q → serves a b (100%Z :: q)
  | serves_other a b bill q :
      bill ≠ 25%Z → bill ≠ 50%Z → bill ≠ 100%Z →
      serves a b q → serves a b (bill :: q).

(** How many customers pay with a given bill. *)
Definition count_bill (bill : Z) (queue : list Z) : Z :=
  Z.of_nat (length (filter (λ x, x = bill) queue)).

(** ** [group] *)

(** A JS [Map]: its entries in insertion order, no key twice. *)
Definition Map_has {K V} `{EqDecision K} (m : list (K * V)) (key : K) : bool :=
  bool_decide (key ∈ m.*1).

Fixpoint Map_get {K V} `{EqDecision K} (m : list (K * V)) (key : K)
    : option V :=
  match m with
  | [] => None
  | (k, v) :: m' => if decide (k = key) then Some v else Map_get m' key
  end.

(** [m.set(key, value)]: an existing key keeps its place, a new one goes
    last. *)
Fixpoint Map_set {K V} `{EqDecision K} (m : list (K * V)) (key : K)
    (value : V) : list (K * V) :=
  match m with
  | [] => [(key, value)]
  | (k, v) :: m' =>
    if decide (k = key) then (k, value) :: m'
    else (k, v) :: Map_set m' key value
  end.

(** The body of the [for] loop of [group].  [result.get(key).push(value)]
    extends the array stored under [key] in place; [get] is defined where
    [has] holds. *)
Definition group_step {A K V} `{EqDecision K} (keySelector : A → K)
    (valueSelector : A → V) (result : list (K * list V)) (item : A)
    : list (K * list V) :=
  let key := keySelector item in
  let value := valueSelector item in
  if Map_has result key then
    match Map_get result key with
    | Some values => Map_set result key (values ++ [value])
    | None => result
    end
  else Map_set result key [value].

(** [group] on an array and two functions (the other inputs return an empty
    map). *)
Definition group {A K V} `{EqDecision K} (array : list A)
    (keySelector : A → K) (valueSelector : A → V) : list (K * list V) :=
  foldl (group_step keySelector valueSelector) [] array.

(** ** Plain objects: [compareObjects], [isEmptyObject], [removeProperties] *)

(** Primitive values.  The numbers are those of the language, of a type
    [number] taken as given together with their [===] (which is neither
    reflexive, at [NaN], nor equality, at the two zeros). *)
Inductive prim (number : Type) :=
  | PUndefined
  | PNull
  | PBool (b : bool)
  | PNum (n : number)
  | PStr (s : string).
Arguments PUndefined {number}.
Arguments PNull {number}.
Arguments PBool {number} b.
Arguments PNum {number} n.
Arguments PStr {number} s.

(** [x === y] on primitives. *)
Definition strict_eq {number} (number_eq : number → number → bool)
    (x y : prim number) : bool :=
  match x, y with
  | PUndefined, PUndefined => true
  | PNull, PNull => true
  | PBool a, PBool b => bool_decide (a = b)
  | PNum m, PNum n => number_eq m n
  | PStr s, PStr t => bool_decide (s = t)
  | _, _ => false
  end.

(** An argument of these functions: a primitive ([null] among them), or a
    plain object whose own enumerable properties hold primitives ("there are
    no nested objects"). *)
Inductive value (number : Type) :=
  | Prim (v : prim number)
  | Obj (o : gmap string (prim number)).
Arguments Prim {number} v.
Arguments Obj {number} o.

(** [Object.keys(o)], [Object.hasOwn(o, key)] and [o[key]] on a plain
    object; [o[key]] is only used below for keys that [o] has. *)
Definition Object_keys {V} (o : gmap string V) : list string :=
  (map_to_list o).*1.

Definition Object_hasOwn {V} (o : gmap string V) (key : string) : bool :=
  bool_decide (is_Some (o !! key)).

Definition Object_get {number} (o : gmap string (prim number)) (key : string)
    : prim number :=
  default PUndefined (o !! key).

(** The [for] loop of [compareObjects] over the keys of [obj1] not yet
    visited. *)
Fixpoint compareObjects_loop {number} (number_eq : number → number → bool)
    (obj1 obj2 : gmap string (prim number)) (keys1 : list string) : bool :=
  match keys1 with
  | [] => true
  | key :: keys1' =>
    if negb (Object_hasOwn obj2 key)
       || negb (strict_eq number_eq (Object_get obj1 key) (Object_get obj2 key))
    then false
    else compareObjects_loop number_eq obj1 obj2 keys1'
  end.

(** When one argument is not an object the function returns [obj1 === obj2]:
    [===] on two primitives, [false] for a primitive and an object. *)
Definition compareObjects {number} (number_eq : number → number → bool)
    (obj1 obj2 : value number) : bool :=
  match obj1, obj2 with
  | Obj o1, Obj o2 =>
    let keys1 := Object_keys o1 in
    let keys2 := Object_keys o2 in
    if negb (length keys1 =? length keys2) then false
    else compareObjects_loop number_eq o1 o2 keys1
  | Prim v1, Prim v2 => strict_eq number_eq v1 v2
  | _, _ => false
  end.

(** Two arguments alike for [===]: two primitives that are [===], or two
    objects with the same keys whose values under each key are [===]. *)
Definition alike {number} (number_eq : number → number → bool)
    (obj1 obj2 : value number) : Prop :=
  match obj1, obj2 with
  | Prim v1, Prim v2 => strict_eq number_eq v1 v2 = true
  | Obj o1, Obj o2 =>
    ∀ key,
      match o1 !! key, o2 !! key with
      | Some v1, Some v2 => strict_eq number_eq v1 v2 = true
      | None, None => True
      | _, _ => False
      end
  | _, _ => False
  end.

Definition isEmptyObject {number} (obj : value number) : bool :=
  match obj with
  | Prim _ => true
  | Obj o => length (Object_keys o) =? 0
  end.

(** [keys] is [None] when the second argument is not an array. *)
Definition removeProperties {number} (obj : value number)
    (keys : option (list string)) : value number :=
  match obj, keys with
  | Obj o, Some keys =>
    let newObj := o in
    Obj (foldl (λ newObj key,
                  if Object_hasOwn newObj key then delete key newObj
                  else newObj)
               newObj keys)
  | _, _ => obj
  end.

(** ** [makeWord] *)

(** [lettersObject] is given by its entries, in the order in which
    [Object.keys] and [Object.values] list them (the keys are distinct); a
    value is an array of integer positions, or [None] for a value that is
    not an array. *)

(** [Math.max(...positions, max)] *)
Definition Math_max (positions : list Z) (max : Z) : Z :=
  foldr Z.max max positions.

(** The [reduce] of [makeWord], from 0. *)
Definition makeWord_max (lettersObject : list (string * option (list Z)))
    : Z :=
  foldl (λ max positions,
           match positions with
           | None => max
           | Some positions =>
             let localMax := Math_max positions max in
             localMax
           end)
        0%Z lettersObject.*2.

(** A result, or the [RangeError] of the array constructor. *)
Inductive or_RangeError (A : Type) :=
  | Returned (a : A)
  | RangeError.
Arguments Returned {A} a.
Arguments RangeError {A}.

(** [new Array(wordLength).fill('')]: the constructor throws for a length
    that is not between 0 and 2^32 - 1. *)
Definition new_Array_fill (wordLength : Z) : or_RangeError (list string) :=
  if (0 <=? wordLength)%Z && (wordLength <=? 4294967295)%Z
  then Returned (replicate (Z.to_nat wordLength) "")
  else RangeError.

(** [makeWord].  The [+ 1] of the source adds doubles: up to 2^53 that is the
    sum of the integers, and wherever the two sums differ both are above
    2^32 - 1, where the array constructor throws. *)
Definition makeWord (lettersObject : list (string * option (list Z)))
    : or_RangeError string :=
  let wordLength := (makeWord_max lettersObject + 1)%Z in
  match new_Array_fill wordLength with
  | RangeError => RangeError
  | Returned word =>
    let word :=
      foldl (λ word '(letter, positions),
               match positions with
               | Some positions =>
                 foldl (λ word pos,
                          if (0 <=? pos)%Z && (pos <? wordLength)%Z
                          then <[Z.to_nat pos := letter]> word
                          else word)
                       word positions
               | None => word
               end)
            word lettersObject in
    Returned (String.concat "" word)
  end.

(** [m] is the largest position listed in [lettersObject], or 0 when none
    is positive. *)
Definition is_largest (lettersObject : list (string * option (list Z)))
    (m : Z) : Prop :=
  (0 ≤ m)%Z
  ∧ (∀ letter positions pos,
       (letter, Some positions) ∈ lettersObject → pos ∈ positions →
       (pos ≤ m)%Z)
  ∧ (m = 0%Z
     ∨ ∃ letter positions,
         (letter, Some positions) ∈ lettersObject ∧ m ∈ positions).

(** The key of the last entry that lists position [i]; the empty string when
    none does. *)
Definition letter_at (lettersObject : list (string * option (list Z)))
    (i : Z) : string :=
  foldl (λ current '(letter, positions),
           match positions with
           | Some positions => if decide (i ∈ positions) then letter else current
           | None => current
           end)
        "" lettersObject.

(** ** The order of parts in a chain *)

(** Part [p] may follow part [q] in a chain: [q] is earlier in the order, or
    the two are the same part and it is not a single-use one. *)
Definition may_follow (q p : part) : Prop :=
  rank q < rank p ∨ (q = p ∧ single_use p = false).

(** ** The comparator of [sortCitiesArray] *)

Record City := mkCity { country : string; city : string }.

(** The function [sortCitiesArray] passes to [arr.sort].  [toUpperCase] is the
    string method of the language, taken as given; [<] and [>] on strings
    compare character codes from the left. *)
Definition sortCitiesArray_compare (toUpperCase : string → string)
    (a b : City) : Z :=
  let countryA := toUpperCase (country a) in
  let countryB := toUpperCase (country b) in
  if String.ltb countryA countryB then (-1)%Z
  else if String.ltb countryB countryA then 1%Z
  else
    let cityA := toUpperCase (city a) in
    let cityB := toUpperCase (city b) in
    if String.ltb cityA cityB then (-1)%Z
    else if String.ltb cityB cityA then 1%Z
    else 0%Z.

(** * The examples of the source's documentation *)

Example doc_example_1 :
  outcome_of ((l ← cssSelectorBuilder.id "main";
               l ← Selector.class l "container";
               l ← Selector.class l "editable";
               Selector.stringify 1 l) ∅)
  = Returns "#main.container.editable".
Proof. vm_compute. reflexivity. Qed.

(** (The attribute of the documentation's example, [href$=".png"], is written
    here without its quotation marks.) *)
Example doc_example_2 :
  outcome_of ((l ← cssSelectorBuilder.element "a";
               l ← Selector.attr l "href$=.png";
               l ← Selector.pseudoClass l "focus";
               Selector.stringify 1 l) ∅)
  = Returns "a[href$=.png]:focus".
Proof. vm_compute. reflexivity. Qed.

Example doc_example_3 :
  outcome_of ((a ← cssSelectorBuilder.element "div";
               a ← Selector.id a "main";
               a ← Selector.class a "container";
               a ← Selector.class a "draggable";
               b ← cssSelectorBuilder.element "table";
               b ← Selector.id b "data";
               c ← cssSelectorBuilder.element "tr";
               c ← Selector.pseudoClass c "nth-of-type(even)";
               d ← cssSelectorBuilder.element "td";
               d ← Selector.pseudoClass d "nth-of-type(even)";
               cd ← cssSelectorBuilder.combine c " " d;
               bcd ← cssSelectorBuilder.combine b "~" cd;
               abcd ← cssSelectorBuilder.combine a "+" bcd;
               Selector.stringify 4 abcd) ∅)
  = Returns "div#main.container.draggable + table#data ~ tr:nth-of-type(even)   td:nth-of-type(even)".
Proof. vm_compute. reflexivity. Qed.

(** * Running the methods *)

Ltac unfold_monad :=
  unfold mbind, M_bind, bind, mret, M_ret, ret, throw, get, put in *.

(** Runs a method body on a store whose object at [this] is known. *)
Ltac run_with Hs :=
  unfold_monad;
  repeat first
    [ rewrite Hs
    | rewrite lookup_insert_eq
    | rewrite insert_insert_eq
    | progress cbn beta iota
    | match goal with
      | |- context [if ?b then _ else _] => destruct b
      end ];
  try reflexivity.

Section methods.
Context (h : heap) (this : loc) (s : Selector).
Hypothesis Hs : h !! this = Some s.

Lemma element_run value :
  Selector.element this value h =
    if hasElement s then Throw DuplicateSelectorPart h
    else if hasId s || truthy_num (length (classValues s))
            || truthy_num (length (attrValues s))
            || truthy_num (length (pseudoClassValues s))
            || hasPseudoElement s
    then Throw OutOfOrder h
    else Ok this
      (<[this := set_hasElement true (set_elementValue value s)]> h).
Proof using Hs. unfold Selector.element. run_with Hs. Qed.

Lemma id_run value :
  Selector.id this value h =
    if hasId s then Throw DuplicateSelectorPart h
    else if truthy_num (length (classValues s))
            || truthy_num (length (attrValues s))
            || truthy_num (length (pseudoClassValues s))
            || hasPseudoElement s
    then Throw OutOfOrder h
    else Ok this (<[this := set_hasId true (set_idValue value s)]> h).
Proof using Hs. unfold Selector.id. run_with Hs. Qed.

Lemma class_run value :
  Selector.class this value h =
    if truthy_num (length (attrValues s))
       || truthy_num (length (pseudoClassValues s)) || hasPseudoElement s
    then Throw OutOfOrder h
    else Ok this
      (<[this := set_classValues (classValues s ++ [value]) s]> h).
Proof using Hs. unfold Selector.class. run_with Hs. Qed.

Lemma attr_run value :
  Selector.attr this value h =
    if truthy_num (length (pseudoClassValues s)) || hasPseudoElement s
    then Throw OutOfOrder h
    else Ok this (<[this := set_attrValues (attrValues s ++ [value]) s]> h).
Proof using Hs. unfold Selector.attr. run_with Hs. Qed.

Lemma pseudoClass_run value :
  Selector.pseudoClass this value h =
    if hasPseudoElement s then Throw OutOfOrder h
    else Ok this
      (<[this := set_pseudoClassValues (pseudoClassValues s ++ [value]) s]> h).
Proof using Hs. unfold Selector.pseudoClass. run_with Hs. Qed.

Lemma pseudoElement_run value :
  Selector.pseudoElement this value h =
    if hasPseudoElement s then Throw DuplicateSelectorPart h
    else Ok this
      (<[this := set_hasPseudoElement true (set_pseudoElementValue value s)]> h).
Proof using Hs. unfold Selector.pseudoElement. run_with Hs. Qed.

Lemma combine_run selector1 c selector2 :
  Selector.combine this selector1 c selector2 h =
    Ok this
      (<[this := set_combinator c (set_selectors [selector1; selector2] s)]> h).
Proof using Hs. unfold Selector.combine. run_with Hs. Qed.
End methods.

(** The table of guards and mutations agrees with the methods. *)
Lemma part_run p (h : heap) this s v :
  h !! this = Some s →
  Selector_part p this v h =
    match guard p s with
    | Some e => Throw e h
    | None => Ok this (<[this := mutate p v s]> h)
    end.
Proof.
  intros Hs. destruct p; cbn [Selector_part];
    [ rewrite (element_run _ _ _ Hs) | rewrite (id_run _ _ _ Hs)
    | rewrite (class_run _ _ _ Hs) | rewrite (attr_run _ _ _ Hs)
    | rewrite (pseudoClass_run _ _ _ Hs) | rewrite (pseudoElement_run _ _ _ Hs) ];
    unfold guard; cbn;
    destruct (hasElement s), (hasId s), (hasPseudoElement s),
      (truthy_num (length (classValues s))),
      (truthy_num (length (attrValues s))),
      (truthy_num (length (pseudoClassValues s))); reflexivity.
Qed.

Lemma part_missing p (h : heap) this v :
  h !! this = None → Selector_part p this v h = Throw TypeError h.
Proof.
  intros Hs. destruct p; cbn [Selector_part];
    unfold Selector.element, Selector.id, Selector.class, Selector.attr,
      Selector.pseudoClass, Selector.pseudoElement; run_with Hs.
Qed.

(** A part call returns its receiver and touches no other object; when it
    throws, it has not touched the store at all. *)
Lemma part_ok p (h : heap) this v r h' :
  Selector_part p this v h = Ok r h' →
  ∃ s, h !! this = Some s ∧ guard p s = None ∧ r = this
       ∧ h' = <[this := mutate p v s]> h.
Proof.
  destruct (h !! this) as [s|] eqn:Hs.
  - rewrite (part_run _ _ _ _ _ Hs). destruct (guard p s) eqn:Hg; [done|].
    intros [= <- <-]. eauto.
  - by rewrite part_missing.
Qed.

Lemma part_throw p (h : heap) this v e h' :
  Selector_part p this v h = Throw e h' → h' = h.
Proof.
  destruct (h !! this) as [s|] eqn:Hs.
  - rewrite (part_run _ _ _ _ _ Hs). destruct (guard p s); [|done].
    by intros [= _ <-].
  - rewrite part_missing by done. by intros [= _ <-].
Qed.

Lemma part_not_exhausted p (h : heap) this v :
  Selector_part p this v h ≠ OutOfFuel.
Proof.
  destruct (h !! this) as [s|] eqn:Hs.
  - rewrite (part_run _ _ _ _ _ Hs). by destruct (guard p s).
  - by rewrite part_missing.
Qed.

(** Allocation. *)
Lemma new_Selector_run (h : heap) :
  new_Selector h = Ok (fresh (dom h)) (<[fresh (dom h) := constructor]> h).
Proof. reflexivity. Qed.

Lemma fresh_lookup (h : heap) : h !! fresh (dom h) = None.
Proof. apply not_elem_of_dom, is_fresh. Qed.

Lemma guard_constructor p : guard p constructor = None.
Proof. by destruct p. Qed.

Lemma builder_part_unfold p v (h : heap) :
  builder_part p v h = (selector ← new_Selector; Selector_part p selector v) h.
Proof. by destruct p. Qed.

Lemma builder_part_run p v (h : heap) :
  builder_part p v h =
    Ok (fresh (dom h)) (<[fresh (dom h) := mutate p v constructor]> h).
Proof.
  rewrite builder_part_unfold. unfold mbind, M_bind, bind.
  rewrite new_Selector_run.
  rewrite (part_run p _ _ constructor) by apply lookup_insert_eq.
  by rewrite guard_constructor, insert_insert_eq.
Qed.

Lemma builder_combine_run a c b (h : heap) :
  cssSelectorBuilder.combine a c b h =
    Ok (fresh (dom h))
       (<[fresh (dom h) :=
            set_combinator c (set_selectors [a; b] constructor)]> h).
Proof.
  unfold cssSelectorBuilder.combine, mbind, M_bind, bind.
  rewrite new_Selector_run.
  rewrite (combine_run _ _ constructor) by apply lookup_insert_eq.
  by rewrite insert_insert_eq.
Qed.

(** * Rendering *)

(** Runs the branch of [stringify] that renders the object's own fields. *)
Ltac simple_branch Hs :=
  repeat first
    [ rewrite Hs
    | progress cbn beta iota zeta
    | match goal with
      | |- context [if ?b then _ else _] => destruct b
      end ];
  try reflexivity.

(** [stringify] never writes: whatever it returns or throws, the store is the
    one it was called on. *)
Lemma stringify_store fuel : ∀ this (h : heap),
  match Selector.stringify fuel this h with
  | Ok _ h' | Throw _ h' => h' = h
  | OutOfFuel => True
  end.
Proof.
  induction fuel as [|fuel IH]; intros this h; [done|].
  cbn [Selector.stringify]. unfold index. unfold_monad.
  destruct (h !! this) as [s|] eqn:Hs; [|done].
  destruct (truthy_num (length (selectors s))).
  - rewrite Hs. destruct (selectors s !! 0) as [s0|]; [|done]. cbn beta iota.
    pose proof (IH s0 h) as H0.
    destruct (Selector.stringify fuel s0 h) as [l h0|e h0|]; subst; [|done..].
    rewrite !Hs. destruct (selectors s !! 1) as [s1|]; [|done]. cbn beta iota.
    pose proof (IH s1 h) as H1.
    by destruct (Selector.stringify fuel s1 h) as [r h1|e h1|]; subst.
  - simple_branch Hs.
Qed.

Lemma stringify_ok_store fuel this (h : heap) s h' :
  Selector.stringify fuel this h = Ok s h' → h' = h.
Proof. intros H. pose proof (stringify_store fuel this h). by rewrite H in *. Qed.

Lemma stringify_S fuel this (h : heap) :
  Selector.stringify (S fuel) this h
  = stringify_step (Selector.stringify fuel) this h.
Proof.
  cbn [Selector.stringify]. unfold stringify_step, index. unfold_monad.
  destruct (h !! this) as [s|] eqn:Hs; [|done].
  destruct (truthy_num (length (selectors s))).
  - rewrite Hs. destruct (selectors s !! 0) as [s0|]; [|done]. cbn beta iota.
    pose proof (stringify_store fuel s0 h) as H0.
    destruct (Selector.stringify fuel s0 h) as [l h0|e h0|]; subst; [|done..].
    rewrite !Hs. destruct (selectors s !! 1) as [s1|]; [|done]. cbn beta iota.
    pose proof (stringify_store fuel s1 h) as H1.
    by destruct (Selector.stringify fuel s1 h) as [r h1|e h1|]; subst.
  - unfold render_fields. simple_branch Hs.
Qed.

(** More fuel does not change a result already obtained. *)
Lemma stringify_fuel_S fuel : ∀ this (h : heap),
  Selector.stringify fuel this h ≠ OutOfFuel →
  Selector.stringify (S fuel) this h = Selector.stringify fuel this h.
Proof.
  induction fuel as [|fuel IH]; intros this h Hne; [done|].
  rewrite (stringify_S (S fuel)). rewrite stringify_S in Hne |- *.
  unfold stringify_step in *.
  destruct (h !! this) as [s|]; [|done].
  destruct (truthy_num (length (selectors s))); [|done].
  destruct (selectors s !! 0) as [s0|]; [|done].
  destruct (Selector.stringify fuel s0 h) as [l h0|e h0|] eqn:E0; [| |done].
  - rewrite IH, E0 by (by rewrite E0).
    destruct (selectors s !! 1) as [s1|]; [|done].
    destruct (Selector.stringify fuel s1 h) as [r h1|e h1|] eqn:E1; [| |done];
      by rewrite IH, E1 by (by rewrite E1).
  - by rewrite IH, E0 by (by rewrite E0).
Qed.

Lemma stringify_fuel_le fuel fuel' this (h : heap) :
  fuel ≤ fuel' →
  Selector.stringify fuel this h ≠ OutOfFuel →
  Selector.stringify fuel' this h = Selector.stringify fuel this h.
Proof.
  induction 1 as [|fuel' _ IH]; intros Hne; [done|].
  rewrite stringify_fuel_S; [by apply IH|]. by rewrite IH.
Qed.

(** The result does not depend on the fuel that sufficed. *)
Lemma stringify_fuel_agree fuel1 fuel2 this (h : heap) :
  Selector.stringify fuel1 this h ≠ OutOfFuel →
  Selector.stringify fuel2 this h ≠ OutOfFuel →
  Selector.stringify fuel1 this h = Selector.stringify fuel2 this h.
Proof.
  intros H1 H2. destruct (Nat.le_ge_cases fuel1 fuel2).
  - symmetry. by apply stringify_fuel_le.
  - by apply stringify_fuel_le.
Qed.

Lemma renders_to_fuel (h : heap) this s :
  renders_to h this s →
  ∃ fuel0, ∀ fuel, fuel0 ≤ fuel → Selector.stringify fuel this h = Ok s h.
Proof.
  intros [fuel0 H]. exists fuel0. intros fuel Hle.
  rewrite (stringify_fuel_le fuel0) by (done || by rewrite H). done.
Qed.

Lemma renders_to_unique (h : heap) this s1 s2 :
  renders_to h this s1 → renders_to h this s2 → s1 = s2.
Proof.
  intros [f1 H1] [f2 H2].
  pose proof (stringify_fuel_agree f1 f2 this h) as H.
  rewrite H1, H2 in H. by injection H.
Qed.

(** An object without sub-selectors renders its own fields; one with
    sub-selectors renders them around its combinator. *)
Lemma renders_to_simple (h : heap) this s :
  h !! this = Some s → selectors s = [] → renders_to h this (render_fields s).
Proof.
  intros Hs Hsel. exists 1. rewrite stringify_S. unfold stringify_step.
  by rewrite Hs, Hsel.
Qed.

Lemma renders_to_combined (h : heap) this s a b sa sb :
  h !! this = Some s → selectors s !! 0 = Some a → selectors s !! 1 = Some b →
  renders_to h a sa → renders_to h b sb →
  renders_to h this (sa +:+ " " +:+ combinator s +:+ " " +:+ sb).
Proof.
  intros Hs Ha Hb [fa Hfa]%renders_to_fuel [fb Hfb]%renders_to_fuel.
  exists (S (fa `max` fb)). rewrite stringify_S. unfold stringify_step.
  rewrite Hs. destruct (selectors s) as [|x l]; [done|].
  cbn [length truthy_num Nat.eqb negb]. rewrite Ha, Hb.
  by rewrite Hfa, Hfb by lia.
Qed.

(** * Sharing: what a render depends on *)

(** A render that returns only reads objects that exist, so it is unaffected
    by objects allocated later. *)
Lemma stringify_weaken fuel : ∀ this (h h' : heap) s,
  h ⊆ h' →
  Selector.stringify fuel this h = Ok s h →
  Selector.stringify fuel this h' = Ok s h'.
Proof.
  induction fuel as [|fuel IH]; intros this h h' str Hsub; [done|].
  rewrite !stringify_S. unfold stringify_step.
  destruct (h !! this) as [s|] eqn:Hs; [|done].
  rewrite (lookup_weaken _ _ _ _ Hs Hsub).
  destruct (truthy_num (length (selectors s))); [|by intros [= <-]].
  destruct (selectors s !! 0) as [s0|]; [|done].
  destruct (Selector.stringify fuel s0 h) as [l h0|e h0|] eqn:E0; [|done..].
  pose proof (stringify_ok_store _ _ _ _ _ E0) as ->.
  rewrite (IH _ _ _ _ Hsub E0).
  destruct (selectors s !! 1) as [s1|]; [|done].
  destruct (Selector.stringify fuel s1 h) as [r h1|e h1|] eqn:E1; [|done..].
  pose proof (stringify_ok_store _ _ _ _ _ E1) as ->.
  rewrite (IH _ _ _ _ Hsub E1). by intros [= <-].
Qed.

Lemma renders_to_weaken (h h' : heap) this s :
  h ⊆ h' → renders_to h this s → renders_to h' this s.
Proof. intros Hsub [fuel H]. exists fuel. by eapply stringify_weaken. Qed.

(** Two stores that differ only in the part fields of one object that has
    stored sub-selectors render every object alike. *)
Lemma stringify_combined_parts fuel :
  ∀ l (h1 h2 : heap) this s1 s2,
    h1 !! this = Some s1 → h2 !! this = Some s2 →
    (∀ l', l' ≠ this → h1 !! l' = h2 !! l') →
    selectors s1 = selectors s2 → combinator s1 = combinator s2 →
    truthy_num (length (selectors s1)) = true →
    outcome_of (Selector.stringify fuel l h1)
    = outcome_of (Selector.stringify fuel l h2).
Proof.
  induction fuel as [|fuel IH]; intros l h1 h2 this s1 s2 H1 H2 Hne Hsel Hc Hlen;
    [done|].
  rewrite !stringify_S. unfold stringify_step.
  assert (∀ l', outcome_of (Selector.stringify fuel l' h1)
                = outcome_of (Selector.stringify fuel l' h2)) as Hrec
    by (intros; by eapply IH).
  destruct (decide (l = this)) as [->|Hl].
  - rewrite H1, H2, <- Hsel, <- Hc, Hlen.
    destruct (selectors s1 !! 0) as [a|]; [|done].
    pose proof (Hrec a) as Ha.
    destruct (Selector.stringify fuel a h1), (Selector.stringify fuel a h2);
      simplify_eq/=; try done.
    destruct (selectors s1 !! 1) as [b|]; [|done].
    pose proof (Hrec b) as Hb.
    destruct (Selector.stringify fuel b h1), (Selector.stringify fuel b h2);
      by simplify_eq/=.
  - rewrite <- (Hne l Hl). destruct (h1 !! l) as [s|]; [|done].
    destruct (truthy_num (length (selectors s))); [|done].
    destruct (selectors s !! 0) as [a|]; [|done].
    pose proof (Hrec a) as Ha.
    destruct (Selector.stringify fuel a h1), (Selector.stringify fuel a h2);
      simplify_eq/=; try done.
    destruct (selectors s !! 1) as [b|]; [|done].
    pose proof (Hrec b) as Hb.
    destruct (Selector.stringify fuel b h1), (Selector.stringify fuel b h2);
      by simplify_eq/=.
Qed.

(** * Termination of rendering on built stores *)

Lemma finite_mono (h h' : heap) this :
  (∀ l s, h !! l = Some s →
          ∃ s', h' !! l = Some s' ∧ selectors s' = selectors s) →
  finite h this → finite h' this.
Proof.
  intros Hh. induction 1 as [this s Hs Hsel|this s a b Hs Ha Hb _ IHa _ IHb].
  - destruct (Hh _ _ Hs) as (s' & Hs' & Heq).
    eapply finite_simple; [done|congruence].
  - destruct (Hh _ _ Hs) as (s' & Hs' & Heq).
    apply (finite_combined h' this s' a b); [done| | |done..];
      by rewrite Heq.
Qed.

Lemma finite_renders (h : heap) this :
  finite h this → ∃ s, renders_to h this s.
Proof.
  induction 1 as [this s Hs Hsel|this s a b Hs Ha Hb _ [sa IHa] _ [sb IHb]].
  - eexists. by apply renders_to_simple.
  - eexists. by eapply renders_to_combined.
Qed.

Lemma selectors_mutate p v s : selectors (mutate p v s) = selectors s.
Proof. by destruct p. Qed.

Lemma combinator_mutate p v s : combinator (mutate p v s) = combinator s.
Proof. by destruct p. Qed.

Lemma built_finite (h : heap) :
  built h → ∀ this, is_Some (h !! this) → finite h this.
Proof.
  induction 1 as [|p v h l h' _ IH Hrun|p this0 v h l h' _ IH Hrun
                  |a c b h l h' _ IH Ha Hb Hrun]; intros this Hthis.
  - rewrite lookup_empty in Hthis. by destruct Hthis.
  - rewrite builder_part_run in Hrun. injection Hrun as <- <-.
    assert (∀ l s, h !! l = Some s →
              ∃ s', <[fresh (dom h) := mutate p v constructor]> h !! l = Some s'
                    ∧ selectors s' = selectors s) as Hmono.
    { intros l s Hl. exists s. split; [|done].
      rewrite lookup_insert_ne; [done|].
      intros <-. by rewrite fresh_lookup in Hl. }
    destruct (decide (this = fresh (dom h))) as [->|Hne].
    + eapply finite_simple; [apply lookup_insert_eq|].
      by rewrite selectors_mutate.
    + rewrite lookup_insert_ne in Hthis by done.
      eapply finite_mono; eauto.
  - apply part_ok in Hrun as (s & Hs & _ & -> & ->).
    assert (∀ l s0, h !! l = Some s0 →
              ∃ s', <[this0 := mutate p v s]> h !! l = Some s'
                    ∧ selectors s' = selectors s0) as Hmono.
    { intros l s0 Hl. destruct (decide (l = this0)) as [->|Hne].
      - exists (mutate p v s). rewrite lookup_insert_eq.
        split; [done|]. rewrite selectors_mutate. congruence.
      - exists s0. by rewrite lookup_insert_ne. }
    eapply finite_mono; [done|]. apply IH.
    destruct (decide (this = this0)) as [->|Hne]; [by eexists|].
    by rewrite lookup_insert_ne in Hthis.
  - rewrite builder_combine_run in Hrun. injection Hrun as <- <-.
    assert (∀ l s, h !! l = Some s →
              ∃ s', <[fresh (dom h) :=
                        set_combinator c (set_selectors [a; b] constructor)]> h
                      !! l = Some s'
                    ∧ selectors s' = selectors s) as Hmono.
    { intros l s Hl. exists s. split; [|done].
      rewrite lookup_insert_ne; [done|].
      intros <-. by rewrite fresh_lookup in Hl. }
    destruct (decide (this = fresh (dom h))) as [->|Hne].
    + eapply finite_combined; [apply lookup_insert_eq|done|done|..];
        eapply finite_mono; eauto.
    + rewrite lookup_insert_ne in Hthis by done.
      eapply finite_mono; eauto.
Qed.

(** * Chains *)

Lemma chain_run ps : ∀ this (h : heap) s,
  h !! this = Some s →
  chain this ps h =
    match play ps s with
    | (None, s') => Ok this (<[this := s']> h)
    | (Some e, s') => Throw e (<[this := s']> h)
    end.
Proof.
  induction ps as [|[p v] ps IH]; intros this h s Hs.
  - cbn. by rewrite insert_id.
  - cbn [chain play]. unfold mbind, M_bind, bind.
    rewrite (part_run p h this s v Hs). destruct (guard p s).
    + by rewrite insert_id.
    + rewrite (IH this _ (mutate p v s)) by apply lookup_insert_eq.
      destruct (play ps (mutate p v s)) as [[e|] s'];
        by rewrite insert_insert_eq.
Qed.

Lemma build_run ps (h : heap) :
  build ps h =
    match play ps constructor with
    | (None, s') => Ok (fresh (dom h)) (<[fresh (dom h) := s']> h)
    | (Some e, s') => Throw e (<[fresh (dom h) := s']> h)
    end.
Proof.
  unfold build, mbind, M_bind, bind. rewrite new_Selector_run.
  rewrite (chain_run ps _ _ constructor) by apply lookup_insert_eq.
  destruct (play ps constructor) as [[e|] s']; by rewrite insert_insert_eq.
Qed.

Lemma build_ok ps (h : heap) this h' :
  build ps h = Ok this h' →
  ∃ s, play ps constructor = (None, s) ∧ h !! this = None
       ∧ h' = <[this := s]> h.
Proof.
  rewrite build_run. destruct (play ps constructor) as [[e|] s']; [done|].
  intros [= <- <-]. eauto using fresh_lookup.
Qed.

(** The facade starts the chain a [new Selector()] would. *)
Lemma build_cons p v ps (h : heap) :
  build ((p, v) :: ps) h = (this ← builder_part p v; chain this ps) h.
Proof.
  unfold build at 1. cbn [chain]. unfold mbind, M_bind, bind.
  rewrite builder_part_unfold. unfold mbind, M_bind, bind.
  by destruct (new_Selector h).
Qed.

(** ** The state a chain reaches *)

Lemma values_of_cons p q v ps :
  values_of p ((q, v) :: ps)
  = if decide (q = p) then v :: values_of p ps else values_of p ps.
Proof.
  unfold values_of. rewrite filter_cons. cbn. by destruct (decide (q = p)).
Qed.

Lemma truthy_num_snoc {A} (l : list A) x : truthy_num (length (l ++ [x])) = true.
Proof.
  rewrite length_app. cbn. unfold truthy_num.
  by destruct (length l + 1) eqn:?; [lia|].
Qed.

Lemma supplied_mutate p v s q :
  supplied (mutate p v s) q = true ↔ supplied s q = true ∨ q = p.
Proof.
  destruct p, q; cbn; rewrite ?truthy_num_snoc;
    (split; [intros; first [by right|by left] | by intros [?|?]]).
Qed.

Lemma play_supplied ps : ∀ s s' q,
  play ps s = (None, s') →
  supplied s' q = true ↔ supplied s q = true ∨ q ∈ ps.*1.
Proof.
  induction ps as [|[p v] ps IH]; intros s s' q Hplay; cbn in Hplay.
  - injection Hplay as <-. rewrite elem_of_nil. tauto.
  - destruct (guard p s); [done|].
    rewrite (IH _ _ q Hplay), supplied_mutate. cbn. rewrite elem_of_cons.
    tauto.
Qed.

Lemma play_selectors ps : ∀ s,
  selectors (play ps s).2 = selectors s
  ∧ combinator (play ps s).2 = combinator s.
Proof.
  induction ps as [|[p v] ps IH]; intros s; cbn; [done|].
  destruct (guard p s); [done|].
  destruct (IH (mutate p v s)) as [-> ->].
  by rewrite selectors_mutate, combinator_mutate.
Qed.

Lemma play_lists ps : ∀ s s',
  play ps s = (None, s') →
  classValues s' = classValues s ++ values_of Class ps
  ∧ attrValues s' = attrValues s ++ values_of Attr ps
  ∧ pseudoClassValues s' = pseudoClassValues s ++ values_of PseudoClass ps.
Proof.
  induction ps as [|[p v] ps IH]; intros s s' Hplay; cbn in Hplay.
  - injection Hplay as <-. unfold values_of. cbn. by rewrite !app_nil_r.
  - destruct (guard p s); [done|].
    destruct (IH _ _ Hplay) as (-> & -> & ->).
    rewrite !values_of_cons.
    destruct p; cbn; repeat case_decide; try done; by rewrite <- ?app_assoc.
Qed.

(** A single-use part already set is not in a chain that runs through. *)
Lemma play_single_use ps : ∀ s s' p,
  play ps s = (None, s') →
  single_use p = true → supplied s p = true → values_of p ps = [].
Proof.
  induction ps as [|[q v] ps IH]; intros s s' p Hplay Hsingle Hsup;
    cbn in Hplay; [done|].
  destruct (guard q s) eqn:Hg; [done|].
  rewrite values_of_cons. destruct (decide (q = p)) as [->|Hne].
  - unfold guard in Hg. by rewrite Hsingle, Hsup in Hg.
  - eapply IH; [done..|]. apply supplied_mutate. by left.
Qed.

Lemma play_values ps : ∀ s s',
  play ps s = (None, s') →
  elementValue s' = default (elementValue s) (value_of Element ps)
  ∧ idValue s' = default (idValue s) (value_of Id ps)
  ∧ pseudoElementValue s'
    = default (pseudoElementValue s) (value_of PseudoElement ps).
Proof.
  induction ps as [|[p v] ps IH]; intros s s' Hplay; cbn in Hplay.
  - by injection Hplay as <-.
  - destruct (guard p s) eqn:Hg; [done|].
    destruct (IH _ _ Hplay) as (-> & -> & ->).
    unfold value_of. rewrite !values_of_cons.
    destruct p; repeat case_decide; try done; cbn [head];
      match type of Hplay with
      | play _ (mutate ?p _ _) = _ =>
          rewrite (play_single_use _ _ _ p Hplay);
            [done..|by apply supplied_mutate; right]
      end.
Qed.

(** * The rendering rule *)

Lemma append_nil_l (s : string) : "" +:+ s = s.
Proof. reflexivity. Qed.

Lemma append_nil_r (s : string) : s +:+ "" = s.
Proof.
  induction s as [|a s IH]; [done|].
  change (String a (s +:+ "") = String a s). by rewrite IH.
Qed.

Lemma append_assoc (s1 s2 s3 : string) :
  (s1 +:+ s2) +:+ s3 = s1 +:+ (s2 +:+ s3).
Proof.
  induction s1 as [|a s1 IH]; [done|].
  change (String a ((s1 +:+ s2) +:+ s3) = String a (s1 +:+ (s2 +:+ s3))).
  by rewrite IH.
Qed.

(** The accumulation of [stringify], as one concatenation. *)
Lemma render_fields_eq s :
  render_fields s
  = if_nonempty "" (elementValue s)
    +:+ if_nonempty "#" (idValue s)
    +:+ String.concat "" (map (λ c, "." +:+ c) (classValues s))
    +:+ String.concat "" (map (λ a, "[" +:+ a +:+ "]") (attrValues s))
    +:+ String.concat "" (map (λ p, ":" +:+ p) (pseudoClassValues s))
    +:+ if_nonempty "::" (pseudoElementValue s).
Proof.
  unfold render_fields, if_nonempty, map_join.
  destruct (truthy_str (elementValue s)), (truthy_str (idValue s)),
    (truthy_str (pseudoElementValue s)),
    (classValues s), (attrValues s), (pseudoClassValues s);
    cbn [length truthy_num Nat.eqb negb map String.concat];
    rewrite ?append_nil_r, ?append_assoc, ?append_nil_l; reflexivity.
Qed.

Lemma if_nonempty_default pre (o : option string) :
  if_nonempty pre (default "" o) = if_set_nonempty pre o.
Proof. by destruct o. Qed.

(** The fields a chain leaves on a fresh object render by the rule. *)
Lemma render_fields_play ps s :
  play ps constructor = (None, s) → render_fields s = render ps.
Proof.
  intros Hplay.
  destruct (play_values _ _ _ Hplay) as (He & Hi & Hp).
  destruct (play_lists _ _ _ Hplay) as (Hc & Ha & Hpc).
  cbn in He, Hi, Hp, Hc, Ha, Hpc.
  rewrite render_fields_eq, He, Hi, Hp, Hc, Ha, Hpc.
  by rewrite !if_nonempty_default.
Qed.

Lemma stringify_build ps (h0 : heap) this h fuel :
  build ps h0 = Ok this h →
  Selector.stringify (S fuel) this h = Ok (render ps) h.
Proof.
  intros (s & Hplay & _ & ->)%build_ok.
  rewrite stringify_S. unfold stringify_step. rewrite lookup_insert_eq.
  pose proof (play_selectors ps constructor) as [Hsel _].
  rewrite Hplay in Hsel. cbn in Hsel. rewrite Hsel. cbn.
  by rewrite (render_fields_play _ _ Hplay).
Qed.

(** C1, as amended: for a node built from scratch by a chain of part calls
    that all succeed (any string arguments), [stringify()] returns the
    concatenation, in this order, of the element (if set and non-empty),
    ['#' + id] (if set and non-empty), ['.' + c] for each class,
    ['[' + a + ']'] for each attribute, [':' + p] for each pseudo-class, each
    in call order, and ['::' + pseudoElement] (if set and non-empty). *)
Theorem stringify_simple ps (h0 : heap) this h fuel :
  build ps h0 = Ok this h →
  Selector.stringify (S fuel) this h = Ok (render ps) h.
Proof. apply stringify_build. Qed.

Lemma stringify_simple_witness :
  Selector.stringify 1 2 (<[2 := a_b]> tr_td) = Ok "a.b." (<[2 := a_b]> tr_td).
Proof.
  apply (stringify_simple
           [(Element, "a"); (Id, ""); (Class, "b"); (Class, "")] tr_td 2
           (<[2 := a_b]> tr_td) 0).
  vm_compute. reflexivity.
Defined.

(** C1 as stated fails: [id('')] sets the id, and the rule as stated then
    contributes ['#'], but [stringify()] returns the empty string. *)
Lemma stringify_simple_counterexample :
  ¬ (∀ ps (h0 : heap) this h fuel,
       build ps h0 = Ok this h →
       Selector.stringify (S fuel) this h = Ok (spec_render ps) h).
Proof.
  intros H.
  pose proof (H [(Id, "")] ∅ _ _ 0 eq_refl) as H'.
  vm_compute in H'. discriminate H'.
Qed.

(** Where no single-use part is the empty string, the rule as stated and the
    rule as amended agree. *)
Lemma render_spec_render ps :
  (∀ p, single_use p = true → value_of p ps ≠ Some "") →
  render ps = spec_render ps.
Proof.
  intros H. unfold render, spec_render.
  assert (∀ pre p, single_use p = true →
            if_set_nonempty pre (value_of p ps) = if_set pre (value_of p ps))
    as Heq.
  { intros pre p Hp. specialize (H p Hp).
    destruct (value_of p ps) as [[|a v]|]; cbn; done. }
  by rewrite !Heq.
Qed.

(** * Combination *)

(** C2: [combine(a, c, b).stringify()] is [a.stringify() + ' ' + c + ' ' +
    b.stringify()], whatever the token [c]; the two sides render after the
    call as they did before it. *)
Theorem combine_stringify a c b (h : heap) this h' sa sb :
  cssSelectorBuilder.combine a c b h = Ok this h' →
  renders_to h a sa → renders_to h b sb →
  renders_to h' this (sa +:+ " " +:+ c +:+ " " +:+ sb)
  ∧ renders_to h' a sa ∧ renders_to h' b sb.
Proof.
  rewrite builder_combine_run. intros [= <- <-] Ha Hb.
  assert (h ⊆ <[fresh (dom h) :=
                  set_combinator c (set_selectors [a; b] constructor)]> h)
    as Hsub by apply insert_subseteq, fresh_lookup.
  pose proof (renders_to_weaken _ _ _ _ Hsub Ha) as Ha'.
  pose proof (renders_to_weaken _ _ _ _ Hsub Hb) as Hb'.
  split; [|done].
  by apply (renders_to_combined _ _
              (set_combinator c (set_selectors [a; b] constructor)) a b);
    [apply lookup_insert_eq|..].
Qed.

Lemma combine_stringify_witness :
  renders_to
    (<[2 := set_combinator " " (set_selectors [0; 1] constructor)]> tr_td)
    2 "tr   td".
Proof.
  refine (proj1 (combine_stringify 0 " " 1 tr_td 2 _ "tr" "td" _ _ _)).
  - vm_compute. reflexivity.
  - exists 1. vm_compute. reflexivity.
  - exists 1. vm_compute. reflexivity.
Defined.

(** C7: [combine] does not fail, for any two references and any token, and
    returns a node that stores the two references and the token: a new node
    through the facade, the receiver through the method. *)
Theorem combine_never_fails a c b (h : heap) :
  (∃ this s,
     cssSelectorBuilder.combine a c b h = Ok this (<[this := s]> h)
     ∧ h !! this = None ∧ selectors s = [a; b] ∧ combinator s = c)
  ∧ (∀ this s0, h !! this = Some s0 →
       ∃ s, Selector.combine this a c b h = Ok this (<[this := s]> h)
            ∧ selectors s = [a; b] ∧ combinator s = c).
Proof.
  split.
  - rewrite builder_combine_run. eexists _, _.
    split; [done|]. split; [apply fresh_lookup|done].
  - intros this s0 Hs. rewrite (combine_run _ _ _ Hs). by eexists.
Qed.

Lemma combine_never_fails_witness :
  ∃ s, Selector.combine 0 0 "%" 7 (<[0 := constructor]> ∅)
       = Ok 0 (<[0 := s]> (<[0 := constructor]> ∅))
       ∧ selectors s = [0; 7] ∧ combinator s = "%".
Proof.
  exact (proj2 (combine_never_fails 0 "%" 7 (<[0 := constructor]> ∅))
           0 constructor eq_refl).
Defined.

(** * Failure and identity *)

(** C5: a part call that throws has not changed the store: had the caller
    caught the exception, whatever follows runs as if the call had not been
    made. *)
Theorem failed_call_leaves_state p this v (h : heap) e h' :
  Selector_part p this v h = Throw e h' →
  h' = h
  ∧ ∀ A (k : M A), (try_catch (Selector_part p this v);; k) h = k h.
Proof.
  intros Hthrow. pose proof (part_throw _ _ _ _ _ _ Hthrow) as ->.
  split; [done|]. intros A k. unfold mbind, M_bind, bind, try_catch.
  by rewrite Hthrow.
Qed.

Lemma failed_call_leaves_state_witness :
  (try_catch (Selector_part Element 0 "again");; Selector.stringify 1 0) tr_td
  = Selector.stringify 1 0 tr_td.
Proof.
  refine (proj2 (failed_call_leaves_state Element 0 "again" tr_td
                   DuplicateSelectorPart tr_td _) _ _).
  vm_compute. reflexivity.
Defined.



(** The node of the witness renders both classes. *)
Example main_container_editable_renders :
  Selector.stringify 1 1 (<[1 := main_container_editable]> main_container)
  = Ok "#main.container.editable"
       (<[1 := main_container_editable]> main_container).
Proof. vm_compute. reflexivity. Qed.

(** The example of the specification: two chains started with [element]. *)
Example two_elements :
  outcome_of ((a ← cssSelectorBuilder.element "a";
               b ← cssSelectorBuilder.element "b";
               sa ← Selector.stringify 1 a;
               sb ← Selector.stringify 1 b;
               mret (a, b, sa, sb)) ∅)
  = Returns (0, 1, "a", "b").
Proof. vm_compute. reflexivity. Qed.

(** * Order and duplicates *)

Lemma later_parts_spec p q : In q (later_parts p) ↔ rank p < rank q.
Proof.
  unfold later_parts. rewrite List.filter_In, Nat.ltb_lt.
  split; [tauto|]. intros H. split; [|done]. destruct q; cbn; tauto.
Qed.

Lemma messages_differ : DuplicateSelectorPart ≠ OutOfOrder.
Proof. discriminate. Qed.

(** When the guard answers [OutOfOrder], and when [DuplicateSelectorPart]. *)
Lemma guard_out_of_order p s :
  guard p s = Some OutOfOrder ↔
    (∃ q, rank p < rank q ∧ supplied s q = true)
    ∧ ¬ (single_use p = true ∧ supplied s p = true).
Proof.
  unfold guard. destruct (single_use p && supplied s p) eqn:Hdup.
  - apply andb_true_iff in Hdup. split; [|tauto].
    intros H. destruct messages_differ. congruence.
  - apply andb_false_iff in Hdup.
    assert (¬ (single_use p = true ∧ supplied s p = true)) as Hnot.
    { intros [??]. destruct Hdup; congruence. }
    destruct (existsb (supplied s) (later_parts p)) eqn:Hlater.
    + apply existsb_exists in Hlater as (q & Hq%later_parts_spec & Hsup).
      split; [|done]. intros _. split; [|done]. by exists q.
    + split; [done|]. intros [(q & Hq%later_parts_spec & Hsup) _].
      assert (existsb (supplied s) (later_parts p) = true) as Htrue
        by (apply existsb_exists; by exists q).
      congruence.
Qed.

Lemma guard_duplicate p s :
  guard p s = Some DuplicateSelectorPart ↔
    single_use p = true ∧ supplied s p = true.
Proof.
  unfold guard. destruct (single_use p && supplied s p) eqn:Hdup.
  - by apply andb_true_iff in Hdup.
  - apply andb_false_iff in Hdup. split.
    + destruct (existsb _ _); [|done]. intros H.
      destruct messages_differ. congruence.
    + intros [??]. destruct Hdup; congruence.
Qed.

Lemma part_throws_iff p (h : heap) this s v e :
  h !! this = Some s →
  Selector_part p this v h = Throw e h ↔ guard p s = Some e.
Proof.
  intros Hs. rewrite (part_run _ _ _ _ _ Hs).
  destruct (guard p s); [|done]. split; congruence.
Qed.

(** A repeatable part leaves its own guard as it was. *)
Lemma guard_mutate_repeatable p v s :
  single_use p = false → guard p (mutate p v s) = guard p s.
Proof. by destruct p. Qed.

Lemma play_repeat p s : single_use p = false → guard p s = None →
  ∀ vs, (play ((λ v, (p, v)) <$> vs) s).1 = None.
Proof.
  intros Hp Hg vs. revert s Hg.
  induction vs as [|v vs IH]; intros s Hg; [done|].
  cbn. rewrite Hg. apply IH. by rewrite guard_mutate_repeatable.
Qed.

(** C3, as amended: on a node built from scratch by a chain of part calls, a
    part call throws the order error exactly when a category strictly later
    in the order is among those already supplied and the call does not
    repeat an element or id already set (the duplicate check runs first);
    and once a class, attribute or pseudo-class call succeeds, any number of
    further calls of the same part in a row succeed. *)
Theorem out_of_order_exactly ps (h0 : heap) this h :
  build ps h0 = Ok this h →
  (∀ p v,
     Selector_part p this v h = Throw OutOfOrder h ↔
       (∃ q, q ∈ ps.*1 ∧ rank p < rank q)
       ∧ ¬ (single_use p = true ∧ p ∈ ps.*1))
  ∧ (∀ p v l h1,
       single_use p = false →
       Selector_part p this v h = Ok l h1 →
       ∀ vs, ∃ h2, chain this ((λ v, (p, v)) <$> vs) h1 = Ok this h2).
Proof.
  intros (s & Hplay & _ & ->)%build_ok.
  assert (∀ q, supplied s q = true ↔ q ∈ ps.*1) as Hsup.
  { intros q. rewrite (play_supplied _ _ _ q Hplay).
    split; [|tauto]. intros [H|H]; [by destruct q|done]. }
  split.
  - intros p v.
    rewrite (part_throws_iff _ _ _ s) by apply lookup_insert_eq.
    rewrite guard_out_of_order. rewrite Hsup.
    split; intros [(q & Hq1 & Hq2) Hnot]; (split; [exists q|done]).
    + by rewrite <- Hsup.
    + by rewrite Hsup.
  - intros p v l h1 Hp (s1 & Hs1 & Hg & _ & ->)%part_ok vs.
    rewrite lookup_insert_eq in Hs1. injection Hs1 as <-.
    rewrite (chain_run _ _ _ (mutate p v s)) by apply lookup_insert_eq.
    pose proof (play_repeat p (mutate p v s) Hp) as Hrep.
    rewrite guard_mutate_repeatable in Hrep by done.
    specialize (Hrep Hg vs).
    destruct (play (_ <$> vs) _) as [[e|] s2]; cbn in Hrep; [done|].
    eexists. reflexivity.
Qed.

Lemma out_of_order_exactly_witness :
  Selector_part Id 0 "x" (<[0 := mutate Class "c" constructor]> ∅)
  = Throw OutOfOrder (<[0 := mutate Class "c" constructor]> ∅).
Proof.
  assert (build [(Class, "c")] ∅
          = Ok 0 (<[0 := mutate Class "c" constructor]> ∅)) as Hbuild
    by (vm_compute; reflexivity).
  apply (proj1 (out_of_order_exactly _ _ _ _ Hbuild) Id "x").
  split.
  - exists Class. split; [|cbn; lia]. cbn. apply list_elem_of_singleton.
    reflexivity.
  - intros [_ H]. cbn in H. apply list_elem_of_singleton in H. discriminate H.
Defined.

(** C3 as stated fails: after [element] and [id], a later category ([id])
    has been supplied, yet a second [element] throws the duplicate error, not
    the order error. *)
Lemma out_of_order_exactly_counterexample :
  ¬ (∀ ps (h0 : heap) this h p v,
       build ps h0 = Ok this h →
       Selector_part p this v h = Throw OutOfOrder h ↔
         ∃ q, q ∈ ps.*1 ∧ rank p < rank q).
Proof.
  intros H.
  pose proof (H [(Element, "a"); (Id, "b")] ∅ _ _ Element "c" eq_refl) as [_ H'].
  assert (∃ q, q ∈ [(Element, "a"); (Id, "b")].*1 ∧ rank Element < rank q)
    as Hq.
  { exists Id. split; [|cbn; lia]. cbn. rewrite !elem_of_cons. tauto. }
  apply H' in Hq. vm_compute in Hq. discriminate Hq.
Qed.

(** * What later calls preserve *)

Lemma grows_refl (h : heap) : grows h h.
Proof. intros l s Hl. by exists s. Qed.

Lemma grows_trans (h1 h2 h3 : heap) : grows h1 h2 → grows h2 h3 → grows h1 h3.
Proof.
  intros H12 H23 l s Hl.
  destruct (H12 _ _ Hl) as (s2 & Hl2 & Hs2).
  destruct (H23 _ _ Hl2) as (s3 & Hl3 & Hs3).
  exists s3. split; [done|]. auto.
Qed.

Lemma grows_insert (h : heap) this s s' :
  h !! this = Some s →
  (∀ q, supplied s q = true → supplied s' q = true) →
  grows h (<[this := s']> h).
Proof.
  intros Hs Hsup l s0 Hl. destruct (decide (l = this)) as [->|Hne].
  - exists s'. rewrite lookup_insert_eq. split; [done|].
    rewrite Hs in Hl. by injection Hl as <-.
  - exists s0. by rewrite lookup_insert_ne.
Qed.

Lemma grows_alloc (h : heap) this s' :
  h !! this = None → grows h (<[this := s']> h).
Proof.
  intros Hs l s0 Hl. exists s0. split; [|done].
  rewrite lookup_insert_ne; [done|]. intros <-. congruence.
Qed.

Lemma combine_missing (h : heap) this a c b :
  h !! this = None → Selector.combine this a c b h = Throw TypeError h.
Proof. intros Hs. unfold Selector.combine. run_with Hs. Qed.

Lemma perform_grows c (h h' : heap) : perform c h = Ok () h' → grows h h'.
Proof.
  destruct c as [this p v|p v|this a c b|a c b|fuel this]; cbn [perform];
    unfold mbind, M_bind, bind, try_catch, mret, M_ret, ret.
  - destruct (Selector_part p this v h) as [l h1|e h1|] eqn:Hrun; [| |done].
    + apply part_ok in Hrun as (s & Hs & _ & _ & ->). intros [= <-].
      eapply grows_insert; [done|]. intros q Hq. apply supplied_mutate. by left.
    + apply part_throw in Hrun as ->. intros [= <-]. apply grows_refl.
  - rewrite builder_part_run. intros [= <-]. apply grows_alloc, fresh_lookup.
  - destruct (h !! this) as [s|] eqn:Hs.
    + rewrite (combine_run _ _ _ Hs). intros [= <-].
      eapply grows_insert; [done|]. by intros [].
    + rewrite combine_missing by done. intros [= <-]. apply grows_refl.
  - rewrite builder_combine_run. intros [= <-]. apply grows_alloc, fresh_lookup.
  - pose proof (stringify_store fuel this h) as Hstore.
    destruct (Selector.stringify fuel this h) as [s h1|e h1|]; [| |done];
      subst; intros [= <-]; apply grows_refl.
Qed.

Lemma run_grows cs : ∀ (h h' : heap), run cs h = Ok () h' → grows h h'.
Proof.
  induction cs as [|c cs IH]; intros h h'; cbn [run].
  - intros [= <-]. apply grows_refl.
  - unfold mbind, M_bind, bind.
    destruct (perform c h) as [[] h1|e h1|] eqn:Hc; [|done..].
    intros Hrun.
    exact (grows_trans _ _ _ (perform_grows c _ _ Hc) (IH _ _ Hrun)).
Qed.

(** A single-use part, once set by a successful call, makes every later call
    of that part on the node throw the duplicate error. *)
Lemma repeated_single_use p this v1 (h0 : heap) l h1 cs h2 v2 :
  single_use p = true →
  Selector_part p this v1 h0 = Ok l h1 →
  run cs h1 = Ok () h2 →
  Selector_part p this v2 h2 = Throw DuplicateSelectorPart h2.
Proof.
  intros Hp (s & Hs & _ & _ & ->)%part_ok Hrun%run_grows.
  destruct (Hrun this (mutate p v1 s)) as (s2 & Hs2 & Hsup);
    [apply lookup_insert_eq|].
  apply (part_throws_iff _ _ _ s2); [done|]. apply guard_duplicate.
  split; [done|]. apply Hsup, supplied_mutate. by right.
Qed.

(** C4: after [element], [id] or [pseudoElement] has succeeded on a node, and
    whatever calls of the API the client makes in between (each possibly
    failing and caught), calling the same method on that node again throws
    the duplicate error. *)
Theorem second_call_duplicate this v1 v2 (h0 : heap) l h1 cs h2 :
  run cs h1 = Ok () h2 →
  (Selector.element this v1 h0 = Ok l h1 →
   Selector.element this v2 h2 = Throw DuplicateSelectorPart h2)
  ∧ (Selector.id this v1 h0 = Ok l h1 →
     Selector.id this v2 h2 = Throw DuplicateSelectorPart h2)
  ∧ (Selector.pseudoElement this v1 h0 = Ok l h1 →
     Selector.pseudoElement this v2 h2 = Throw DuplicateSelectorPart h2).
Proof.
  intros Hrun. repeat split; intros Hfirst.
  - by apply (repeated_single_use Element this v1 h0 l h1 cs h2 v2).
  - by apply (repeated_single_use Id this v1 h0 l h1 cs h2 v2).
  - by apply (repeated_single_use PseudoElement this v1 h0 l h1 cs h2 v2).
Qed.

Lemma second_call_duplicate_witness :
  Selector.element 0 "td2"
    (<[0 := mutate Class "c" (mutate Element "tr" constructor)]> tr_td)
  = Throw DuplicateSelectorPart
      (<[0 := mutate Class "c" (mutate Element "tr" constructor)]> tr_td).
Proof.
  refine (proj1 (second_call_duplicate 0 "tr" "td2"
                   (<[1 := mutate Element "td" constructor]>
                      (<[0 := constructor]> ∅))
                   0 tr_td
                   [CallPart 0 Class "c"; CallPart 0 Id "late";
                    CallStringify 1 0]
                   _ _) _).
  - vm_compute. reflexivity.
  - vm_compute. reflexivity.
Defined.

(** * Rendering is an observation *)

(** C6: [stringify()] leaves the store as it found it, so a second call
    returns what the first returned, and what follows a render runs as if no
    render had been made; on a store built through the API, every node's
    [stringify()] returns. *)
Theorem stringify_pure (h : heap) this :
  (∀ fuel,
     match Selector.stringify fuel this h with
     | Ok _ h' | Throw _ h' => h' = h
     | OutOfFuel => True
     end)
  ∧ (∀ fuel1 fuel2 s1 h1 s2 h2,
       Selector.stringify fuel1 this h = Ok s1 h1 →
       Selector.stringify fuel2 this h1 = Ok s2 h2 →
       s1 = s2 ∧ h2 = h)
  ∧ (built h → is_Some (h !! this) →
     ∃ s fuel0, ∀ fuel, fuel0 ≤ fuel →
       Selector.stringify fuel this h = Ok s h
       ∧ ∀ A (k : M A), (Selector.stringify fuel this;; k) h = k h).
Proof.
  split; [|split].
  - intros fuel. apply stringify_store.
  - intros fuel1 fuel2 s1 h1 s2 h2 H1 H2.
    pose proof (stringify_ok_store _ _ _ _ _ H1) as ->.
    pose proof (stringify_ok_store _ _ _ _ _ H2) as ->.
    split; [|done]. apply (renders_to_unique h this); by eexists.
  - intros Hbuilt Hthis.
    destruct (finite_renders _ _ (built_finite _ Hbuilt _ Hthis)) as [s Hs].
    destruct (renders_to_fuel _ _ _ Hs) as [fuel0 Hfuel].
    exists s, fuel0. intros fuel Hle. split; [by apply Hfuel|].
    intros A k. unfold mbind, M_bind, bind. by rewrite Hfuel.
Qed.

Lemma built_tr_td : built tr_td.
Proof.
  apply (built_new Element "td" (<[0 := mutate Element "tr" constructor]> ∅) 1).
  - apply (built_new Element "tr" ∅ 0); [apply built_empty|].
    vm_compute. reflexivity.
  - vm_compute. reflexivity.
Defined.

Lemma stringify_pure_witness :
  ∃ s fuel0, ∀ fuel, fuel0 ≤ fuel →
    Selector.stringify fuel 1 tr_td = Ok s tr_td
    ∧ ∀ A (k : M A), (Selector.stringify fuel 1;; k) tr_td = k tr_td.
Proof.
  apply (proj2 (proj2 (stringify_pure tr_td 1))).
  - apply built_tr_td.
  - exists (mutate Element "td" constructor). vm_compute. reflexivity.
Defined.

(** * Parts of a combined node *)

Lemma outcome_returns fuel this (h : heap) str :
  outcome_of (Selector.stringify fuel this h) = Returns str →
  Selector.stringify fuel this h = Ok str h.
Proof.
  destruct (Selector.stringify fuel this h) as [s' h'|e h'|] eqn:E; [|done..].
  intros [= ->]. by rewrite (stringify_ok_store _ _ _ _ _ E).
Qed.

Lemma renders_to_outcome (h h' : heap) this str :
  (∀ fuel, outcome_of (Selector.stringify fuel this h')
           = outcome_of (Selector.stringify fuel this h)) →
  renders_to h this str → renders_to h' this str.
Proof.
  intros Heq [fuel Hfuel]. exists fuel. apply outcome_returns.
  by rewrite Heq, Hfuel.
Qed.

(** C10: once [combine] has stored two sub-selectors on a node, the node
    renders as the two around the combinator, and the parts set on that node,
    after the [combine] call or before it, change no render: a node the
    facade made with a part, combined, and given further parts, renders its
    two operands around the combinator and nothing else. *)
Theorem combined_ignores_parts this a c b (h : heap) l h1 :
  Selector.combine this a c b h = Ok l h1 →
  (∀ sa sb, renders_to h1 a sa → renders_to h1 b sb →
     renders_to h1 this (sa +:+ " " +:+ c +:+ " " +:+ sb))
  ∧ (∀ p v l' h2,
       Selector_part p this v h1 = Ok l' h2 →
       (∀ fuel x, outcome_of (Selector.stringify fuel x h2)
                  = outcome_of (Selector.stringify fuel x h1))
       ∧ ∀ sa sb, renders_to h1 a sa → renders_to h1 b sb →
           renders_to h2 this (sa +:+ " " +:+ c +:+ " " +:+ sb))
  ∧ (∀ p v l' h' l'' h2,
       Selector_part p this v h = Ok l' h' →
       Selector.combine this a c b h' = Ok l'' h2 →
       (∀ fuel x, outcome_of (Selector.stringify fuel x h2)
                  = outcome_of (Selector.stringify fuel x h1))
       ∧ ∀ sa sb, renders_to h1 a sa → renders_to h1 b sb →
           renders_to h2 this (sa +:+ " " +:+ c +:+ " " +:+ sb))
  ∧ (∀ h0 p0 v0 ps l' h2,
       builder_part p0 v0 h0 = Ok this h →
       chain this ps h1 = Ok l' h2 →
       (∀ sa sb, renders_to h0 a sa → renders_to h0 b sb →
          renders_to h2 this (sa +:+ " " +:+ c +:+ " " +:+ sb))
       ∧ (built h0 → is_Some (h0 !! a) → is_Some (h0 !! b) →
          ∃ str, renders_to h2 this str)).
Proof.
  intros Hcombine.
  destruct (h !! this) as [s|] eqn:Hs;
    [|by rewrite combine_missing in Hcombine].
  rewrite (combine_run _ _ _ Hs) in Hcombine. injection Hcombine as <- <-.
  set (s1 := set_combinator c (set_selectors [a; b] s)).
  assert (∀ sa sb, renders_to (<[this := s1]> h) a sa →
            renders_to (<[this := s1]> h) b sb →
            renders_to (<[this := s1]> h) this
              (sa +:+ " " +:+ c +:+ " " +:+ sb)) as Hrender.
  { intros sa sb Ha Hb.
    by apply (renders_to_combined _ _ s1 a b); [apply lookup_insert_eq|..]. }
  split; [done|]. split; [|split].
  - intros p v l' h2 (s1' & Hs1 & _ & _ & ->)%part_ok.
    rewrite lookup_insert_eq in Hs1. injection Hs1 as <-.
    assert (∀ fuel x,
              outcome_of (Selector.stringify fuel x
                            (<[this := mutate p v s1]> (<[this := s1]> h)))
              = outcome_of (Selector.stringify fuel x (<[this := s1]> h)))
      as Hsame.
    { intros fuel x.
      apply (stringify_combined_parts fuel x _ _ this (mutate p v s1) s1).
      - apply lookup_insert_eq.
      - apply lookup_insert_eq.
      - intros l0 Hne. by rewrite lookup_insert_ne.
      - apply selectors_mutate.
      - apply combinator_mutate.
      - by rewrite selectors_mutate. }
    split; [done|]. intros sa sb Ha Hb.
    apply (renders_to_outcome (<[this := s1]> h)); [|by apply Hrender].
    intros fuel. apply Hsame.
  - intros p v l' h' l'' h2 (s' & Hs' & _ & _ & ->)%part_ok Hcombine.
    rewrite Hs in Hs'. injection Hs' as <-.
    rewrite (combine_run _ _ (mutate p v s)) in Hcombine
      by apply lookup_insert_eq.
    injection Hcombine as <- <-.
    assert (∀ fuel x,
              outcome_of (Selector.stringify fuel x
                (<[this := set_combinator c
                             (set_selectors [a; b] (mutate p v s))]>
                   (<[this := mutate p v s]> h)))
              = outcome_of (Selector.stringify fuel x (<[this := s1]> h)))
      as Hsame.
    { intros fuel x.
      apply (stringify_combined_parts fuel x _ _ this
               (set_combinator c (set_selectors [a; b] (mutate p v s))) s1).
      - apply lookup_insert_eq.
      - apply lookup_insert_eq.
      - intros l0 Hne. by rewrite !lookup_insert_ne.
      - done.
      - done.
      - done. }
    split; [done|]. intros sa sb Ha Hb.
    apply (renders_to_outcome (<[this := s1]> h)); [|by apply Hrender].
    intros fuel. apply Hsame.
  - intros h0 p0 v0 ps l' h2 Hnew Hchain.
    rewrite builder_part_run in Hnew. injection Hnew as Hthis Hh.
    assert (h0 !! this = None) as Hfresh
      by (rewrite <- Hthis; apply fresh_lookup).
    rewrite (chain_run ps this _ s1) in Hchain by apply lookup_insert_eq.
    pose proof (play_selectors ps s1) as [Hsel Hcomb].
    destruct (play ps s1) as [[e|] s2]; [done|].
    injection Hchain as _ <-. cbn in Hsel, Hcomb.
    assert (h0 ⊆ <[this := s2]> (<[this := s1]> h)) as Hsub.
    { apply insert_subseteq_r; [done|]. apply insert_subseteq_r; [done|].
      rewrite <- Hh, Hthis. by apply insert_subseteq. }
    assert (∀ sa sb, renders_to h0 a sa → renders_to h0 b sb →
              renders_to (<[this := s2]> (<[this := s1]> h)) this
                (sa +:+ " " +:+ c +:+ " " +:+ sb)) as Hall.
    { intros sa sb Ha Hb.
      replace c with (combinator s2) by done.
      apply (renders_to_combined _ _ s2 a b);
        [apply lookup_insert_eq|by rewrite Hsel|by rewrite Hsel|..];
        by eapply renders_to_weaken. }
    split; [done|]. intros Hbuilt Ha Hb.
    destruct (finite_renders _ _ (built_finite _ Hbuilt _ Ha)) as [sa Hsa].
    destruct (finite_renders _ _ (built_finite _ Hbuilt _ Hb)) as [sb Hsb].
    eexists. by apply Hall.
Qed.

Lemma combined_ignores_parts_witness :
  renders_to x_combined_parts 2 "tr > td".
Proof.
  assert (Selector.combine 2 0 ">" 1 x_node = Ok 2 x_combined) as Hcombine
    by (vm_compute; reflexivity).
  assert (builder_part Element "x" tr_td = Ok 2 x_node) as Hnew
    by (vm_compute; reflexivity).
  assert (chain 2 [(Class, "y"); (PseudoElement, "z")] x_combined
          = Ok 2 x_combined_parts) as Hchain
    by (vm_compute; reflexivity).
  apply (proj1 (proj2 (proj2 (proj2
           (combined_ignores_parts 2 0 ">" 1 x_node 2 x_combined Hcombine)))
           tr_td Element "x" [(Class, "y"); (PseudoElement, "z")]
           2 x_combined_parts Hnew Hchain) "tr" "td").
  - exists 1. vm_compute. reflexivity.
  - exists 1. vm_compute. reflexivity.
Defined.

(** A node that has both parts and sub-selectors: [element('x')], then
    [combine], then [class('y')] on the same node. *)
Example combined_node_with_parts :
  outcome_of ((a ← cssSelectorBuilder.element "a";
               b ← cssSelectorBuilder.element "b";
               n ← cssSelectorBuilder.element "x";
               n ← Selector.combine n a ">" b;
               n ← Selector.class n "y";
               Selector.stringify 2 n) ∅)
  = Returns "a > b".
Proof. vm_compute. reflexivity. Qed.

(** * Empty values *)

Lemma values_of_app p ps1 ps2 :
  values_of p (ps1 ++ ps2) = values_of p ps1 ++ values_of p ps2.
Proof. unfold values_of. by rewrite filter_app, fmap_app. Qed.

Lemma play_at_most_once ps : ∀ s s' p,
  play ps s = (None, s') → single_use p = true →
  length (values_of p ps) ≤ 1.
Proof.
  induction ps as [|[q v] ps IH]; intros s s' p Hplay Hp; cbn in Hplay.
  - cbn. lia.
  - destruct (guard q s); [done|]. rewrite values_of_cons.
    destruct (decide (q = p)) as [->|Hne]; [|by eapply IH].
    rewrite (play_single_use _ _ _ p Hplay); [cbn; lia|done|].
    apply supplied_mutate. by right.
Qed.

(** A single-use part given the empty string adds nothing to the render. *)
Lemma render_empty_value ps p s :
  single_use p = true →
  play (ps ++ [(p, "")]) constructor = (None, s) →
  render (ps ++ [(p, "")]) = render ps.
Proof.
  intros Hp Hplay.
  pose proof (play_at_most_once _ _ _ p Hplay Hp) as Hlen.
  rewrite values_of_app, length_app, values_of_cons in Hlen.
  rewrite decide_True in Hlen by done. cbn in Hlen.
  assert (values_of p ps = []) as Hnil
    by (destruct (values_of p ps); [done|cbn in Hlen; lia]).
  unfold render, value_of. rewrite !values_of_app, !values_of_cons.
  destruct p; try discriminate Hp;
    repeat (rewrite decide_True by done || rewrite decide_False by done);
    rewrite Hnil; unfold values_of at 1 2 3 4 5 6; cbn; by rewrite ?app_nil_r.
Qed.

(** C9: the duplicate check looks at the flag, not at the value: after a
    single-use part has been given the empty string, the node renders as it
    did without it, and a second call of that part throws the duplicate
    error; so for [element('')], [id('')] and [pseudoElement('')] on the
    facade. *)
Theorem duplicate_by_flag (h0 : heap) v :
  (∀ p ps this h,
     single_use p = true →
     build (ps ++ [(p, "")]) h0 = Ok this h →
     (∀ fuel, Selector.stringify (S fuel) this h = Ok (render ps) h)
     ∧ Selector_part p this v h = Throw DuplicateSelectorPart h)
  ∧ (∃ this h,
       cssSelectorBuilder.element "" h0 = Ok this h
       ∧ Selector.stringify 1 this h = Ok "" h
       ∧ Selector.element this v h = Throw DuplicateSelectorPart h)
  ∧ (∃ this h,
       cssSelectorBuilder.id "" h0 = Ok this h
       ∧ Selector.stringify 1 this h = Ok "" h
       ∧ Selector.id this v h = Throw DuplicateSelectorPart h)
  ∧ (∃ this h,
       cssSelectorBuilder.pseudoElement "" h0 = Ok this h
       ∧ Selector.stringify 1 this h = Ok "" h
       ∧ Selector.pseudoElement this v h = Throw DuplicateSelectorPart h).
Proof.
  assert (∀ p, single_use p = true →
            ∃ this h,
              builder_part p "" h0 = Ok this h
              ∧ Selector.stringify 1 this h = Ok "" h
              ∧ Selector_part p this v h = Throw DuplicateSelectorPart h)
    as Hfacade.
  { intros p Hp. eexists _, _. split; [apply builder_part_run|]. split.
    - rewrite stringify_S. unfold stringify_step.
      rewrite lookup_insert_eq, selectors_mutate. cbn.
      by destruct p.
    - rewrite (part_run _ _ _ (mutate p "" constructor))
        by apply lookup_insert_eq.
      by destruct p. }
  split; [|split; [|split]].
  - intros p ps this h Hp Hbuild. split.
    + intros fuel. rewrite (stringify_build _ _ _ _ fuel Hbuild).
      apply build_ok in Hbuild as (s & Hplay & _).
      by rewrite (render_empty_value _ _ _ Hp Hplay).
    + apply build_ok in Hbuild as (s & Hplay & _ & ->).
      apply (part_throws_iff _ _ _ s); [apply lookup_insert_eq|].
      apply guard_duplicate. split; [done|].
      apply (play_supplied _ _ _ p Hplay). right.
      rewrite fmap_app, elem_of_app. right. cbn. apply list_elem_of_here.
  - apply (Hfacade Element eq_refl).
  - apply (Hfacade Id eq_refl).
  - apply (Hfacade PseudoElement eq_refl).
Qed.

Lemma duplicate_by_flag_witness :
  (∀ fuel,
     Selector.stringify (S fuel) 0
       (<[0 := mutate Id "" (mutate Element "a" constructor)]> ∅)
     = Ok "a" (<[0 := mutate Id "" (mutate Element "a" constructor)]> ∅))
  ∧ Selector_part Id 0 "again"
      (<[0 := mutate Id "" (mutate Element "a" constructor)]> ∅)
    = Throw DuplicateSelectorPart
        (<[0 := mutate Id "" (mutate Element "a" constructor)]> ∅).
Proof.
  refine (proj1 (duplicate_by_flag ∅ "again") Id [(Element, "a")] 0 _ _ _).
  - reflexivity.
  - vm_compute. reflexivity.
Defined.

(** * [sellTickets] *)

(** The loop gives only change it has: greedy or not, whoever serves the
    queue from a till with no more bills of 25 and the same total serves it
    when the loop does. *)
Lemma serves_loop a' b' q :
  serves a' b' q → ∀ a b,
    (0 ≤ a')%Z → (0 ≤ b')%Z → (0 ≤ b)%Z → (a' ≤ a)%Z →
    (a + 2 * b = a' + 2 * b')%Z →
    sellTickets_loop a b q = true.
Proof.
  induction 1 as [a' b'|a' b' q _ IH|a' b' q Ha _ IH|a' b' q Ha Hb _ IH
                  |a' b' q Ha _ IH|a' b' bill q H25 H50 H100 _ IH];
    intros a b Ha' Hb' Hb0 Hle Hsum; cbn [sellTickets_loop].
  - done.
  - cbn. apply IH; lia.
  - cbn. destruct (a =? 0)%Z eqn:E; [lia|]. apply IH; lia.
  - cbn. destruct ((0 <? a)%Z && (0 <? b)%Z) eqn:E.
    + apply IH; lia.
    + destruct (3 <=? a)%Z eqn:E3.
      * apply IH; lia.
      * apply andb_false_iff in E. lia.
  - cbn. destruct ((0 <? a)%Z && (0 <? b)%Z) eqn:E.
    + apply andb_true_iff in E. apply IH; lia.
    + destruct (3 <=? a)%Z eqn:E3; [|lia]. apply IH; lia.
  - destruct (bill =? 25)%Z eqn:E25; [lia|].
    destruct (bill =? 50)%Z eqn:E50; [lia|].
    destruct (bill =? 100)%Z eqn:E100; [lia|]. by apply IH.
Qed.

Lemma loop_serves q : ∀ a b,
  (0 ≤ a)%Z → (0 ≤ b)%Z → sellTickets_loop a b q = true → serves a b q.
Proof.
  induction q as [|bill q IH]; intros a b Ha Hb; cbn [sellTickets_loop].
  - intros _. constructor.
  - destruct (bill =? 25)%Z eqn:E25.
    { apply Z.eqb_eq in E25 as ->. intros H. apply serves_25, IH; [lia..|done]. }
    destruct (bill =? 50)%Z eqn:E50.
    { apply Z.eqb_eq in E50 as ->. destruct (a =? 0)%Z eqn:E; [done|].
      intros H. apply serves_50; [lia|]. apply IH; [lia..|done]. }
    destruct (bill =? 100)%Z eqn:E100.
    { apply Z.eqb_eq in E100 as ->.
      destruct ((0 <? a)%Z && (0 <? b)%Z) eqn:E.
      - apply andb_true_iff in E. intros H.
        apply serves_100_with_50; [lia..|]. apply IH; [lia..|done].
      - destruct (3 <=? a)%Z eqn:E3; [|done]. intros H.
        apply serves_100_with_25s; [lia|]. apply IH; [lia..|done]. }
    intros H. apply serves_other; [lia..|]. by apply IH.
Qed.

(** X1: [sellTickets] answers [true] exactly when the queue can be served:
    preferring a 50 and a 25 over three 25s as change for a 100 never loses a
    queue that another choice of change would serve. *)
Theorem sellTickets_complete queue :
  sellTickets queue = true ↔ serves 0 0 queue.
Proof.
  split.
  - apply loop_serves; lia.
  - intros H. apply (serves_loop 0 0 queue H); lia.
Qed.

Lemma sellTickets_complete_witness : serves 0 0 [25; 25; 50; 100]%Z.
Proof.
  apply (proj1 (sellTickets_complete [25; 25; 50; 100]%Z)).
  vm_compute. reflexivity.
Defined.

Lemma sellTickets_loop_prefix q1 q2 : ∀ a b,
  sellTickets_loop a b (q1 ++ q2) = true → sellTickets_loop a b q1 = true.
Proof.
  induction q1 as [|bill q1 IH]; intros a b; [done|].
  cbn [app sellTickets_loop].
  repeat match goal with
         | |- context [if ?c then _ else _] => destruct c
         end; try done; apply IH.
Qed.

(** X2: once a customer cannot be given change the answer is [false] whoever
    follows: a queue that can be served has only prefixes that can. *)
Theorem sellTickets_prefix q1 q2 :
  sellTickets (q1 ++ q2) = true → sellTickets q1 = true.
Proof. apply sellTickets_loop_prefix. Qed.

Lemma sellTickets_prefix_witness : sellTickets [25; 25; 50]%Z = true.
Proof.
  apply (sellTickets_prefix [25; 25; 50]%Z [100; 25; 25; 25; 100]%Z).
  vm_compute. reflexivity.
Defined.

Lemma sellTickets_loop_known q : ∀ a b,
  sellTickets_loop a b (filter (λ bill, bill ∈ [25; 50; 100]%Z) q)
  = sellTickets_loop a b q.
Proof.
  induction q as [|bill q IH]; intros a b; [done|].
  rewrite filter_cons. destruct (decide (bill ∈ [25; 50; 100]%Z)) as [Hin|Hout].
  - cbn [sellTickets_loop].
    repeat match goal with
           | |- context [if ?c then _ else _] => destruct c
           end; try done; apply IH.
  - rewrite IH. cbn [sellTickets_loop].
    destruct (bill =? 25)%Z eqn:E25.
    { destruct Hout. apply Z.eqb_eq in E25 as ->.
      rewrite !elem_of_cons. tauto. }
    destruct (bill =? 50)%Z eqn:E50.
    { destruct Hout. apply Z.eqb_eq in E50 as ->.
      rewrite !elem_of_cons. tauto. }
    destruct (bill =? 100)%Z eqn:E100.
    { destruct Hout. apply Z.eqb_eq in E100 as ->.
      rewrite !elem_of_cons. tauto. }
    done.
Qed.

(** X3: a bill that is none of 25, 50 and 100 is passed over: the customer
    neither pays into the till nor stops the sale. *)
Theorem sellTickets_ignores_other_bills queue :
  sellTickets (filter (λ bill, bill ∈ [25; 50; 100]%Z) queue)
  = sellTickets queue.
Proof. apply sellTickets_loop_known. Qed.

Lemma count_bill_cons bill x q :
  count_bill bill (x :: q)
  = ((if decide (x = bill) then 1 else 0) + count_bill bill q)%Z.
Proof.
  unfold count_bill. rewrite filter_cons.
  destruct (decide (x = bill)); cbn [length]; lia.
Qed.

Lemma sellTickets_loop_needs_25 q : ∀ a b,
  (0 ≤ a)%Z →
  sellTickets_loop a b q = true →
  (count_bill 50 q + count_bill 100 q ≤ a + count_bill 25 q)%Z.
Proof.
  induction q as [|bill q IH]; intros a b Ha;
    [unfold count_bill; rewrite !filter_nil; cbn [length]; lia|].
  cbn [sellTickets_loop]. rewrite !count_bill_cons.
  destruct (bill =? 25)%Z eqn:E25.
  { apply Z.eqb_eq in E25 as ->. intros H%IH; [|lia].
    repeat case_decide; try done; lia. }
  destruct (bill =? 50)%Z eqn:E50.
  { apply Z.eqb_eq in E50 as ->. destruct (a =? 0)%Z eqn:E0; [done|].
    intros H%IH; [|lia]. repeat case_decide; try done; lia. }
  destruct (bill =? 100)%Z eqn:E100.
  { apply Z.eqb_eq in E100 as ->.
    destruct ((0 <? a)%Z && (0 <? b)%Z) eqn:E.
    - apply andb_true_iff in E. intros H%IH; [|lia].
      repeat case_decide; try done; lia.
    - destruct (3 <=? a)%Z eqn:E3; [|done]. intros H%IH; [|lia].
      repeat case_decide; try done; lia. }
  intros H%IH; [|lia]. repeat case_decide; try lia.
Qed.

(** X4: every customer paying with 50 or 100 takes at least one bill of 25 as
    change, so a queue that is served has at least as many customers paying
    25 as paying 50 or 100. *)
Theorem sellTickets_needs_25 queue :
  sellTickets queue = true →
  (count_bill 50 queue + count_bill 100 queue ≤ count_bill 25 queue)%Z.
Proof. intros H%sellTickets_loop_needs_25; lia. Qed.

Lemma sellTickets_needs_25_witness :
  (count_bill 50 [25; 25; 50; 25; 25; 100] + count_bill 100 [25; 25; 50; 25; 25; 100]
   ≤ count_bill 25 [25; 25; 50; 25; 25; 100])%Z.
Proof.
  apply (sellTickets_needs_25 [25; 25; 50; 25; 25; 100]%Z).
  vm_compute. reflexivity.
Defined.

(** * [group] *)

Section map_lemmas.
Context {K V : Type} `{EqDecision K}.
Implicit Types (m : list (K * V)) (k : K) (v : V).

Lemma Map_get_None m k : Map_get m k = None ↔ k ∉ m.*1.
Proof.
  induction m as [|[k' v'] m IH]; cbn.
  - split; [intros _; apply not_elem_of_nil|done].
  - rewrite not_elem_of_cons. destruct (decide (k' = k)) as [->|Hne].
    + split; [done|]. by intros [? _].
    + rewrite IH. split; [by split|by intros [_ ?]].
Qed.

Lemma Map_has_get m k : Map_has m k = true ↔ is_Some (Map_get m k).
Proof.
  unfold Map_has. rewrite bool_decide_eq_true, <- not_eq_None_Some.
  rewrite Map_get_None. split; [tauto|]. apply dec_stable.
Qed.

Lemma Map_get_set m k k' v :
  Map_get (Map_set m k v) k' = if decide (k = k') then Some v else Map_get m k'.
Proof.
  induction m as [|[k0 v0] m IH]; cbn.
  - by destruct (decide (k = k')).
  - destruct (decide (k0 = k)) as [->|Hne]; cbn.
    + by destruct (decide (k = k')).
    + rewrite IH. destruct (decide (k0 = k')) as [->|?]; [|done].
      by rewrite decide_False.
Qed.

Lemma Map_set_keys m k v :
  (Map_set m k v).*1 = if decide (k ∈ m.*1) then m.*1 else m.*1 ++ [k].
Proof.
  induction m as [|[k0 v0] m IH]; cbn.
  - rewrite decide_False; [done|apply not_elem_of_nil].
  - destruct (decide (k0 = k)) as [->|Hne]; cbn.
    + rewrite decide_True; [done|apply list_elem_of_here].
    + rewrite IH. destruct (decide (k ∈ m.*1)) as [Hin|Hout].
      * rewrite decide_True; [done|by apply list_elem_of_further].
      * rewrite decide_False; [done|]. rewrite elem_of_cons.
        intros [?|?]; [by destruct Hne|done].
Qed.
End map_lemmas.

Lemma Map_set_values {K V} `{EqDecision K} (m : list (K * list V)) k vs v :
  Map_get m k = Some vs →
  concat (Map_set m k (vs ++ [v])).*2 ≡ₚ concat m.*2 ++ [v].
Proof.
  induction m as [|[k0 v0] m IH]; cbn; [done|].
  destruct (decide (k0 = k)) as [->|Hne]; cbn.
  - intros [= ->]. rewrite <- !app_assoc. f_equiv.
    apply Permutation_app_comm.
  - intros Hget. rewrite (IH Hget). by rewrite app_assoc.
Qed.

Lemma Map_set_new_values {K V} `{EqDecision K} (m : list (K * list V)) k v :
  Map_get m k = None →
  concat (Map_set m k [v]).*2 = concat m.*2 ++ [v].
Proof.
  induction m as [|[k0 v0] m IH]; cbn; [done|].
  destruct (decide (k0 = k)) as [->|Hne]; cbn; [done|].
  intros Hget. by rewrite (IH Hget), app_assoc.
Qed.

Lemma group_snoc {A K V} `{EqDecision K} (array : list A) item
    (keySelector : A → K) (valueSelector : A → V) :
  group (array ++ [item]) keySelector valueSelector
  = group_step keySelector valueSelector
      (group array keySelector valueSelector) item.
Proof. unfold group. by rewrite foldl_app. Qed.

Lemma filter_none {A} (P : A → Prop) `{∀ x, Decision (P x)} (l : list A) :
  (∀ x, x ∈ l → ¬ P x) → filter P l = [].
Proof.
  intros Hl. destruct (filter P l) as [|x l'] eqn:E; [done|].
  assert (x ∈ filter P l) as [Hx Hin]%list_elem_of_filter
    by (rewrite E; apply list_elem_of_here).
  by destruct (Hl x).
Qed.

Lemma Map_has_false {K V} `{EqDecision K} (m : list (K * V)) k :
  Map_has m k = false → Map_get m k = None.
Proof.
  intros Hhas. destruct (Map_get m k) eqn:E; [|done].
  assert (Map_has m k = true) by (apply Map_has_get; by eexists).
  congruence.
Qed.

(** X5: the array [group] stores under a key holds the values of the items
    with that key, in the order of the array; a key no item has is not in the
    map. *)
Theorem group_get {A K V} `{EqDecision K} (array : list A)
    (keySelector : A → K) (valueSelector : A → V) (key : K) :
  Map_get (group array keySelector valueSelector) key
  = if decide (key ∈ keySelector <$> array)
    then Some (valueSelector <$> filter (λ item, keySelector item = key) array)
    else None.
Proof.
  induction array as [|item array IH] using rev_ind.
  - cbn. rewrite decide_False; [done|apply not_elem_of_nil].
  - rewrite group_snoc. unfold group_step.
    set (m := group array keySelector valueSelector) in *.
    rewrite fmap_app, filter_app, fmap_app. cbn [fmap list_fmap].
    rewrite filter_cons, filter_nil.
    assert (key ∈ (keySelector <$> array) ++ [keySelector item]
            ↔ key ∈ keySelector <$> array ∨ key = keySelector item) as Hmem
      by (by rewrite elem_of_app, list_elem_of_singleton).
    assert (Map_get
              (if Map_has m (keySelector item)
               then match Map_get m (keySelector item) with
                    | Some values =>
                        Map_set m (keySelector item)
                          (values ++ [valueSelector item])
                    | None => m
                    end
               else Map_set m (keySelector item) [valueSelector item]) key
            = if decide (keySelector item = key)
              then Some (default [] (Map_get m key) ++ [valueSelector item])
              else Map_get m key) as ->.
    { destruct (Map_has m (keySelector item)) eqn:Hhas.
      - apply Map_has_get in Hhas as [values Hvalues]. rewrite Hvalues.
        rewrite Map_get_set.
        destruct (decide (keySelector item = key)) as [<-|]; [|done].
        by rewrite Hvalues.
      - apply Map_has_false in Hhas. rewrite Map_get_set.
        destruct (decide (keySelector item = key)) as [<-|]; [|done].
        by rewrite Hhas. }
    rewrite IH. clear IH.
    destruct (decide (keySelector item = key)) as [<-|Hne];
      destruct (decide (_ ∈ keySelector <$> array)) as [Hin|Hout]; cbn.
    + rewrite decide_True; [done|]. apply Hmem. by right.
    + rewrite decide_True by (apply Hmem; by right).
      rewrite filter_none; [done|].
      intros x Hx Heq. destruct Hout. rewrite <- Heq.
      by apply list_elem_of_fmap_2.
    + rewrite app_nil_r, decide_True; [done|]. apply Hmem. by left.
    + rewrite decide_False; [done|]. rewrite Hmem. intros [?|?]; auto.
Qed.

(** X6: the keys of the map are the keys of the items, each once, in the order
    in which they first occur in the array. *)
Theorem group_keys {A K V} `{EqDecision K} (array : list A)
    (keySelector : A → K) (valueSelector : A → V) :
  (group array keySelector valueSelector).*1
  = reverse (remove_dups (reverse (keySelector <$> array)))
  ∧ NoDup (group array keySelector valueSelector).*1.
Proof.
  assert ((group array keySelector valueSelector).*1
          = reverse (remove_dups (reverse (keySelector <$> array)))) as Heq.
  { induction array as [|item array IH] using rev_ind; [done|].
    rewrite group_snoc. unfold group_step.
    set (m := group array keySelector valueSelector) in *.
    rewrite fmap_app, reverse_app.
    change (reverse (keySelector <$> [item]) ++ reverse (keySelector <$> array))
      with (keySelector item :: reverse (keySelector <$> array)).
    assert (keySelector item ∈ m.*1
            ↔ keySelector item ∈ reverse (keySelector <$> array)) as Hin.
    { rewrite IH, !elem_of_reverse, elem_of_remove_dups.
      by rewrite elem_of_reverse. }
    cbn [remove_dups].
    destruct (Map_has m (keySelector item)) eqn:Hhas.
    - pose proof Hhas as [values Hvalues]%Map_has_get. rewrite Hvalues.
      apply bool_decide_eq_true in Hhas.
      rewrite Map_set_keys, decide_True by done.
      destruct (decide_rel _ _ _) as [|Hout]; [done|].
      destruct Hout. by apply Hin.
    - apply bool_decide_eq_false in Hhas.
      rewrite Map_set_keys, decide_False by done.
      destruct (decide_rel _ _ _) as [Hin'|]; [by apply Hin in Hin'|].
      by rewrite reverse_cons, IH. }
  split; [done|]. rewrite Heq, reverse_Permutation. apply NoDup_remove_dups.
Qed.

(** X7: every item's value is in exactly one of the stored arrays: together
    they are a rearrangement of the values of the whole array. *)
Theorem group_values {A K V} `{EqDecision K} (array : list A)
    (keySelector : A → K) (valueSelector : A → V) :
  concat (group array keySelector valueSelector).*2
  ≡ₚ valueSelector <$> array.
Proof.
  induction array as [|item array IH] using rev_ind; [done|].
  rewrite group_snoc, fmap_app. unfold group_step.
  set (m := group array keySelector valueSelector) in *.
  destruct (Map_has m (keySelector item)) eqn:Hhas.
  - apply Map_has_get in Hhas as [values Hvalues]. rewrite Hvalues.
    by rewrite (Map_set_values _ _ _ _ Hvalues), IH.
  - apply Map_has_false in Hhas.
    by rewrite (Map_set_new_values _ _ _ Hhas), IH.
Qed.

(** The example of the documentation. *)
Example group_doc_example :
  group [("Belarus", "Brest"); ("Russia", "Omsk"); ("Russia", "Samara");
         ("Belarus", "Grodno"); ("Belarus", "Minsk"); ("Poland", "Lodz")]
        fst snd
  = [("Belarus", ["Brest"; "Grodno"; "Minsk"]); ("Russia", ["Omsk"; "Samara"]);
     ("Poland", ["Lodz"])].
Proof. vm_compute. reflexivity. Qed.

(** * Plain objects *)

Lemma Object_hasOwn_true {V} (o : gmap string V) key :
  Object_hasOwn o key = true ↔ is_Some (o !! key).
Proof. apply bool_decide_eq_true. Qed.

Lemma elem_of_Object_keys {V} (o : gmap string V) key :
  key ∈ Object_keys o ↔ is_Some (o !! key).
Proof.
  unfold Object_keys. rewrite list_elem_of_fmap. split.
  - intros ([k v] & -> & Hin%elem_of_map_to_list). by eexists.
  - intros [v Hv]. exists (key, v). by rewrite elem_of_map_to_list.
Qed.

Lemma length_Object_keys {V} (o : gmap string V) :
  length (Object_keys o) = size o.
Proof. unfold Object_keys. by rewrite length_fmap, length_map_to_list. Qed.

Lemma compareObjects_loop_true {number} (number_eq : number → number → bool)
    o1 o2 keys1 :
  compareObjects_loop number_eq o1 o2 keys1 = true ↔
    ∀ key, key ∈ keys1 →
      is_Some (o2 !! key)
      ∧ strict_eq number_eq (Object_get o1 key) (Object_get o2 key) = true.
Proof.
  induction keys1 as [|key keys1 IH]; cbn [compareObjects_loop].
  - split; [|done]. intros _ key []%elem_of_nil.
  - destruct (Object_hasOwn o2 key) eqn:Hown; cbn.
    + apply Object_hasOwn_true in Hown.
      destruct (strict_eq number_eq _ _) eqn:Heq; cbn.
      * rewrite IH. split.
        -- intros H k [->|Hin]%elem_of_cons; [done|by apply H].
        -- intros H k Hin. apply H. by apply list_elem_of_further.
      * split; [done|]. intros H.
        destruct (H key) as [_ Htrue]; [apply list_elem_of_here|].
        congruence.
    + split; [done|]. intros H.
      assert (Object_hasOwn o2 key = true) as Htrue
        by (apply Object_hasOwn_true, H, list_elem_of_here).
      congruence.
Qed.

Lemma compareObjects_alike {number} (number_eq : number → number → bool)
    obj1 obj2 :
  compareObjects number_eq obj1 obj2 = true ↔ alike number_eq obj1 obj2.
Proof.
  destruct obj1 as [v1|o1], obj2 as [v2|o2]; cbn [compareObjects alike];
    [done|done|done|].
  rewrite !length_Object_keys.
  destruct (size o1 =? size o2) eqn:Hsize; cbn.
  - apply Nat.eqb_eq in Hsize. rewrite compareObjects_loop_true. split.
    + intros H.
      assert (dom o1 ⊆ dom o2) as Hsub.
      { intros key [v Hv]%elem_of_dom. apply elem_of_dom.
        apply H, elem_of_Object_keys. by eexists. }
      assert (dom o1 = dom o2) as Hdom
        by (apply set_subseteq_size_eq; [done|]; rewrite !size_dom; lia).
      intros key. destruct (o1 !! key) as [v1|] eqn:H1.
      * destruct (H key) as [[v2 H2] Heq];
          [apply elem_of_Object_keys; by eexists|].
        unfold Object_get in Heq. rewrite H1, H2 in Heq. by rewrite H2.
      * destruct (o2 !! key) as [v2|] eqn:H2; [|done].
        assert (key ∈ dom o1) as [v1 Hv1]%elem_of_dom
          by (rewrite Hdom; apply elem_of_dom; by eexists).
        congruence.
    + intros H key [v1 H1]%elem_of_Object_keys.
      specialize (H key). unfold Object_get. rewrite H1 in H |- *.
      destruct (o2 !! key) as [v2|]; [|done]. split; [by eexists|done].
  - apply Nat.eqb_neq in Hsize. split; [done|]. intros H.
    destruct Hsize. rewrite <- !size_dom. f_equal.
    apply set_eq. intros key. rewrite !elem_of_dom. specialize (H key).
    destruct (o1 !! key), (o2 !! key); try done; split; by eauto.
Qed.

(** X8: [compareObjects] is [true] exactly on two primitives that are [===]
    and on two objects that have the same keys with [===] values under each;
    for a primitive and an object it is [false]. *)
Theorem compareObjects_equal {number} (number_eq : number → number → bool)
    obj1 obj2 :
  compareObjects number_eq obj1 obj2 = true ↔ alike number_eq obj1 obj2.
Proof. apply compareObjects_alike. Qed.

Lemma compareObjects_equal_witness :
  compareObjects Z.eqb
    (Obj ({["a" := PNum 1%Z]} ∪ {["b" := PStr "x"]}))
    (Obj ({["b" := PStr "x"]} ∪ {["a" := PNum 1%Z]})) = true.
Proof.
  apply (proj2 (compareObjects_equal Z.eqb
                  (Obj ({["a" := PNum 1%Z]} ∪ {["b" := PStr "x"]}))
                  (Obj ({["b" := PStr "x"]} ∪ {["a" := PNum 1%Z]})))).
  intros key. cbn.
  destruct (decide (key = "a")) as [->|Ha]; [vm_compute; reflexivity|].
  destruct (decide (key = "b")) as [->|Hb]; [vm_compute; reflexivity|].
  rewrite !lookup_union, !lookup_singleton_ne by done. done.
Defined.

(** A number that is not [===] itself makes an object differ from itself. *)
Example compareObjects_not_reflexive :
  compareObjects (λ _ _ : unit, false)
    (Obj {["a" := PNum ()]}) (Obj {["a" := PNum ()]}) = false.
Proof. vm_compute. reflexivity. Qed.

Lemma isEmptyObject_Obj {number} (o : gmap string (prim number)) :
  isEmptyObject (Obj o) = true ↔ o = ∅.
Proof.
  cbn. rewrite length_Object_keys, Nat.eqb_eq. apply map_size_empty_iff.
Qed.

Lemma remove_lookup {V} keys : ∀ (o : gmap string V) key,
  foldl (λ newObj key,
           if Object_hasOwn newObj key then delete key newObj else newObj)
        o keys !! key
  = if decide (key ∈ keys) then None else o !! key.
Proof.
  induction keys as [|k keys IH]; intros o key; cbn [foldl].
  - rewrite decide_False; [done|apply not_elem_of_nil].
  - rewrite IH.
    assert ((if Object_hasOwn o k then delete k o else o) !! key
            = if decide (k = key) then None else o !! key) as Hstep.
    { destruct (Object_hasOwn o k) eqn:Hown.
      - rewrite lookup_delete. by destruct (decide (k = key)).
      - destruct (decide (k = key)) as [<-|]; [|done].
        destruct (o !! k) eqn:E; [|done].
        assert (Object_hasOwn o k = true)
          by (apply Object_hasOwn_true; by eexists).
        congruence. }
    rewrite Hstep.
    destruct (decide (key ∈ keys)) as [Hin|Hout].
    + rewrite decide_True; [done|by apply list_elem_of_further].
    + destruct (decide (k = key)) as [<-|Hne].
      * rewrite decide_True; [done|apply list_elem_of_here].
      * rewrite decide_False; [done|]. rewrite elem_of_cons.
        intros [?|?]; [by destruct Hne|done].
Qed.

Lemma removeProperties_Obj {number} (o : gmap string (prim number)) keys :
  removeProperties (Obj o) (Some keys)
  = Obj (filter (λ kv, kv.1 ∉ keys) o).
Proof.
  cbn. f_equal. apply map_eq. intros key. rewrite remove_lookup.
  rewrite map_lookup_filter. destruct (o !! key) as [v|] eqn:Hv; cbn.
  - destruct (decide (key ∈ keys)).
    + by rewrite option_guard_False by (cbn; tauto).
    + by rewrite option_guard_True.
  - by destruct (decide (key ∈ keys)).
Qed.

(** X9: [removeProperties] returns the object without the listed keys and
    with every other property as it was; listed keys the object does not
    have are passed over. *)
Theorem removeProperties_filter {number} (o : gmap string (prim number))
    keys :
  removeProperties (Obj o) (Some keys)
  = Obj (filter (λ kv, kv.1 ∉ keys) o).
Proof. apply removeProperties_Obj. Qed.

(** X10: removing all its own keys empties an object. *)
Theorem removeProperties_all_keys {number} (o : gmap string (prim number)) :
  isEmptyObject (removeProperties (Obj o) (Some (Object_keys o))) = true.
Proof.
  rewrite removeProperties_Obj. apply isEmptyObject_Obj.
  apply map_eq. intros key. rewrite map_lookup_filter, lookup_empty.
  destruct (o !! key) as [v|] eqn:Hv; [|done]. cbn.
  rewrite option_guard_False; [done|]. cbn. intros Hnot.
  apply Hnot, elem_of_Object_keys. by eexists.
Qed.

(** X11: the result compares equal to the object exactly when none of the
    listed keys is a property of it and every value of the object is [===]
    itself (is not [NaN]). *)
Theorem removeProperties_unchanged {number}
    (number_eq : number → number → bool) (o : gmap string (prim number))
    keys :
  compareObjects number_eq (removeProperties (Obj o) (Some keys)) (Obj o)
  = true
  ↔ (∀ key, key ∈ keys → o !! key = None)
    ∧ (∀ key v, o !! key = Some v → strict_eq number_eq v v = true).
Proof.
  rewrite compareObjects_alike, removeProperties_Obj. cbn [alike]. split.
  - intros H. split.
    + intros key Hin. specialize (H key). rewrite map_lookup_filter in H.
      destruct (o !! key) as [v|] eqn:Hv; [|done]. cbn in H.
      by rewrite option_guard_False in H by (cbn; tauto).
    + intros key v Hv. specialize (H key). rewrite map_lookup_filter in H.
      rewrite Hv in H. cbn in H.
      destruct (decide (key ∉ keys)).
      * by rewrite option_guard_True in H.
      * by rewrite option_guard_False in H.
  - intros [Hkeys Hself] key. rewrite map_lookup_filter.
    destruct (o !! key) as [v|] eqn:Hv; [|done]. cbn.
    rewrite option_guard_True.
    + by apply (Hself key).
    + cbn. intros Hin. rewrite (Hkeys key Hin) in Hv. done.
Qed.

Lemma removeProperties_unchanged_witness :
  compareObjects Z.eqb
    (removeProperties (Obj ({["a" := PNum 1%Z]} ∪ {["b" := PNum 2%Z]}))
       (Some ["d"; "e"]))
    (Obj ({["a" := PNum 1%Z]} ∪ {["b" := PNum 2%Z]})) = true.
Proof.
  apply (proj2 (removeProperties_unchanged Z.eqb
                  ({["a" := PNum 1%Z]} ∪ {["b" := PNum 2%Z]}) ["d"; "e"])).
  split.
  - intros key Hin. rewrite !elem_of_cons in Hin.
    destruct Hin as [->|[->|[]%elem_of_nil]]; vm_compute; reflexivity.
  - intros key v Hv.
    apply lookup_union_Some_raw in Hv as [Hv|[_ Hv]];
      apply lookup_singleton_Some in Hv as [_ <-]; reflexivity.
Defined.

(** * [makeWord] *)

Section makeWord_loops.
Context (wordLength : Z).

Lemma write_positions letter positions : ∀ word : list string,
  let word' :=
    foldl (λ word pos,
             if (0 <=? pos)%Z && (pos <? wordLength)%Z
             then <[Z.to_nat pos := letter]> word
             else word)
          word positions in
  length word' = length word
  ∧ ∀ i, (0 ≤ i < wordLength)%Z → length word = Z.to_nat wordLength →
      word' !! Z.to_nat i
      = if decide (i ∈ positions) then Some letter else word !! Z.to_nat i.
Proof.
  induction positions as [|pos positions IH]; intros word; cbn [foldl].
  - split; [done|]. intros i _ _.
    rewrite decide_False; [done|apply not_elem_of_nil].
  - set (word1 := if (0 <=? pos)%Z && (pos <? wordLength)%Z
                  then <[Z.to_nat pos := letter]> word else word).
    assert (length word1 = length word) as Hlen1
      by (unfold word1; destruct (_ && _); by rewrite ?length_insert).
    destruct (IH word1) as [Hlen Hlookup]. split; [congruence|].
    intros i Hi Hword. rewrite Hlookup by (done || congruence).
    destruct (decide (i ∈ positions)) as [Hin|Hout].
    { rewrite decide_True; [done|by apply list_elem_of_further]. }
    unfold word1. destruct (decide (i = pos)) as [->|Hne].
    + rewrite decide_True by apply list_elem_of_here.
      assert ((0 <=? pos)%Z && (pos <? wordLength)%Z = true) as ->
        by (apply andb_true_iff; lia).
      apply list_lookup_insert_eq. lia.
    + rewrite decide_False
        by (rewrite elem_of_cons; intros [?|?]; [by destruct Hne|done]).
      destruct (_ && _) eqn:Hrange; [|done].
      apply andb_true_iff in Hrange.
      apply list_lookup_insert_ne. lia.
Qed.

Lemma write_entries (entries : list (string * option (list Z))) :
  ∀ (word : list string),
    let word' :=
      foldl (λ word '(letter, positions),
               match positions with
               | Some positions =>
                 foldl (λ word pos,
                          if (0 <=? pos)%Z && (pos <? wordLength)%Z
                          then <[Z.to_nat pos := letter]> word
                          else word)
                       word positions
               | None => word
               end)
            word entries in
    length word' = length word
    ∧ ∀ i current,
        (0 ≤ i < wordLength)%Z → length word = Z.to_nat wordLength →
        word !! Z.to_nat i = Some current →
        word' !! Z.to_nat i
        = Some (foldl (λ current '(letter, positions),
                         match positions with
                         | Some positions =>
                           if decide (i ∈ positions) then letter else current
                         | None => current
                         end)
                      current entries).
Proof.
  induction entries as [|[letter [positions|]] entries IH];
    intros word; cbn [foldl].
  - done.
  - destruct (write_positions letter positions word) as [Hlen1 Hlookup].
    set (word1 := foldl _ word positions) in *.
    destruct (IH word1) as [Hlen' Hcur']. split; [congruence|].
    intros i current Hi Hlen Hcur. apply Hcur'; [done|congruence|].
    rewrite (Hlookup i Hi Hlen). by destruct (decide (i ∈ positions)).
  - apply IH.
Qed.
End makeWord_loops.

Lemma Math_max_spec positions max :
  (max ≤ Math_max positions max)%Z
  ∧ (∀ pos, pos ∈ positions → (pos ≤ Math_max positions max)%Z)
  ∧ (Math_max positions max = max ∨ Math_max positions max ∈ positions).
Proof.
  unfold Math_max. induction positions as [|p positions (IH1 & IH2 & IH3)];
    cbn [foldr].
  - split; [lia|]. split; [by intros pos []%elem_of_nil|by left].
  - split; [lia|]. split.
    + intros pos [->|Hin]%elem_of_cons; [lia|]. specialize (IH2 pos Hin). lia.
    + destruct (Z.max_spec p (foldr Z.max max positions)) as [[_ ->]|[_ ->]].
      * destruct IH3 as [->|Hin]; [by left|].
        right. by apply list_elem_of_further.
      * right. apply list_elem_of_here.
Qed.

Lemma makeWord_max_from (entries : list (string * option (list Z))) :
  ∀ max0,
    let m := foldl (λ max positions,
                      match positions with
                      | None => max
                      | Some positions => Math_max positions max
                      end) max0 entries.*2 in
    (max0 ≤ m)%Z
    ∧ (∀ letter positions pos,
         (letter, Some positions) ∈ entries → pos ∈ positions → (pos ≤ m)%Z)
    ∧ (m = max0
       ∨ ∃ letter positions, (letter, Some positions) ∈ entries ∧ m ∈ positions).
Proof.
  induction entries as [|[letter [positions|]] entries IH]; intros max0;
    cbn [fmap list_fmap snd foldl].
  - split; [lia|]. split; [|by left].
    by intros letter positions pos []%elem_of_nil.
  - destruct (IH (Math_max positions max0)) as (IH1 & IH2 & IH3).
    destruct (Math_max_spec positions max0) as (M1 & M2 & M3).
    split; [lia|]. split.
    + intros letter' positions' pos [[= -> ->]|Hin]%elem_of_cons Hpos.
      * specialize (M2 pos Hpos). lia.
      * by apply (IH2 letter' positions').
    + destruct IH3 as [Heq|(letter' & positions' & Hin & Hm)].
      * rewrite Heq. destruct M3 as [->|Hin]; [by left|].
        right. exists letter, positions. split; [apply list_elem_of_here|done].
      * right. exists letter', positions'.
        split; [by apply list_elem_of_further|done].
  - destruct (IH max0) as (IH1 & IH2 & IH3). split; [done|]. split.
    + intros letter' positions' pos [[=]|Hin]%elem_of_cons Hpos.
      by apply (IH2 letter' positions').
    + destruct IH3 as [Heq|(letter' & positions' & Hin & Hm)]; [by left|].
      right. exists letter', positions'.
      split; [by apply list_elem_of_further|done].
Qed.

Lemma makeWord_max_largest lettersObject :
  is_largest lettersObject (makeWord_max lettersObject).
Proof.
  destruct (makeWord_max_from lettersObject 0%Z) as (H1 & H2 & H3). done.
Qed.

Lemma is_largest_unique lettersObject m1 m2 :
  is_largest lettersObject m1 → is_largest lettersObject m2 → m1 = m2.
Proof.
  intros (P1 & U1 & [->|(l1 & ps1 & I1 & E1)])
         (P2 & U2 & [->|(l2 & ps2 & I2 & E2)]).
  - done.
  - specialize (U1 _ _ _ I2 E2). lia.
  - specialize (U2 _ _ _ I1 E1). lia.
  - specialize (U1 _ _ _ I2 E2). specialize (U2 _ _ _ I1 E1). lia.
Qed.

(** X13: where [m], the largest listed position (0 if none is positive), is
    below 2^32 - 1, [makeWord] returns the concatenation, over the positions
    from 0 to [m], of the letter listed for each position: the last such
    letter in the order of the keys when several list it, and nothing for a
    position no letter lists (so a gap shortens the word). *)
Theorem makeWord_letters lettersObject m :
  is_largest lettersObject m → (m < 4294967295)%Z →
  makeWord lettersObject
  = Returned (String.concat "" (letter_at lettersObject <$> seqZ 0 (m + 1))).
Proof.
  intros Hm Hlt.
  rewrite (is_largest_unique _ _ _ Hm (makeWord_max_largest lettersObject))
    in Hlt |- *.
  destruct (makeWord_max_largest lettersObject) as (Hpos & _ & _).
  unfold makeWord, new_Array_fill.
  set (wordLength := (makeWord_max lettersObject + 1)%Z) in *.
  assert ((0 <=? wordLength)%Z && (wordLength <=? 4294967295)%Z = true) as ->
    by (apply andb_true_iff; lia).
  f_equal. f_equal.
  destruct (write_entries wordLength lettersObject
              (replicate (Z.to_nat wordLength) "")) as [Hlen Hlookup].
  rewrite length_replicate in Hlen.
  apply list_eq. intros n. rewrite list_lookup_fmap.
  destruct (decide (Z.of_nat n < wordLength)%Z) as [Hn|Hn].
  - rewrite lookup_seqZ_lt by done. cbn.
    specialize (Hlookup (Z.of_nat n) "").
    rewrite Nat2Z.id, Z.add_0_l in *. apply Hlookup.
    + lia.
    + by rewrite length_replicate.
    + apply lookup_replicate_2. lia.
  - rewrite lookup_seqZ_ge by lia. cbn. apply lookup_ge_None_2. lia.
Qed.

Lemma makeWord_letters_witness :
  makeWord [("H", Some [0]); ("e", Some [1]); ("l", Some [2; 3; 8]);
            ("o", Some [4; 6]); ("W", Some [5]); ("r", Some [7]);
            ("d", Some [9])]%Z
  = Returned "HelloWorld".
Proof.
  apply (makeWord_letters
           [("H", Some [0]); ("e", Some [1]); ("l", Some [2; 3; 8]);
            ("o", Some [4; 6]); ("W", Some [5]); ("r", Some [7]);
            ("d", Some [9])]%Z 9%Z).
  - apply (makeWord_max_largest
             [("H", Some [0]); ("e", Some [1]); ("l", Some [2; 3; 8]);
              ("o", Some [4; 6]); ("W", Some [5]); ("r", Some [7]);
              ("d", Some [9])]%Z).
  - reflexivity.
Defined.

(** X14: [makeWord] throws the [RangeError] of the array constructor exactly
    when some listed position is 2^32 - 1 or more. *)
Theorem makeWord_RangeError lettersObject :
  makeWord lettersObject = RangeError ↔
    ∃ letter positions pos,
      (letter, Some positions) ∈ lettersObject ∧ pos ∈ positions
      ∧ (4294967295 ≤ pos)%Z.
Proof.
  destruct (makeWord_max_largest lettersObject) as (Hpos & Hup & Hin).
  unfold makeWord, new_Array_fill.
  set (wordLength := (makeWord_max lettersObject + 1)%Z) in *.
  destruct ((0 <=? wordLength)%Z && (wordLength <=? 4294967295)%Z) eqn:Hlen.
  - apply andb_true_iff in Hlen. split; [done|].
    intros (letter & positions & pos & Hentry & Hp & Hbig).
    specialize (Hup _ _ _ Hentry Hp). lia.
  - apply andb_false_iff in Hlen. split; [|done]. intros _.
    destruct Hin as [Hzero|(letter & positions & Hentry & Hp)]; [lia|].
    exists letter, positions, (makeWord_max lettersObject).
    split; [done|]. split; [done|]. lia.
Qed.

Lemma makeWord_RangeError_witness :
  makeWord [("a", Some [0]); ("b", Some [4294967295])]%Z = RangeError.
Proof.
  apply (proj2 (makeWord_RangeError
                  [("a", Some [0]); ("b", Some [4294967295])]%Z)).
  exists "b", [4294967295]%Z, 4294967295%Z.
  split; [|split; [|reflexivity]].
  - apply list_elem_of_further, list_elem_of_here.
  - apply list_elem_of_here.
Defined.

(** The examples of the documentation. *)
Example makeWord_doc_example_1 :
  makeWord [("a", Some [0; 1]); ("b", Some [2; 3]); ("c", Some [4; 5])]%Z
  = Returned "aabbcc".
Proof. vm_compute. reflexivity. Qed.

(** A position no letter lists leaves nothing in the word. *)
Example makeWord_gap :
  makeWord [("a", Some [0]); ("b", Some [2])]%Z = Returned "ab".
Proof. vm_compute. reflexivity. Qed.

(** * More on the selector builder *)

(** A part may follow another in a chain: it is later in the order, or it is
    the same part and not a single-use one. *)
Lemma guard_None p s :
  guard p s = None ↔ ∀ q, supplied s q = true → may_follow q p.
Proof.
  unfold may_follow. split.
  - intros Hg q Hq.
    destruct (decide (rank q < rank p)) as [|Hge]; [by left|].
    destruct (decide (q = p)) as [->|Hne].
    + right. split; [done|]. destruct (single_use p) eqn:Hp; [|done].
      assert (guard p s = Some DuplicateSelectorPart)
        by (by apply guard_duplicate).
      congruence.
    + assert (rank p < rank q)
        by (assert (rank q ≠ rank p) by (by destruct p, q); lia).
      assert (guard p s = Some OutOfOrder) as Hooo.
      { apply guard_out_of_order. split; [by exists q|].
        intros [Hp Hsup]. assert (guard p s = Some DuplicateSelectorPart)
          by (by apply guard_duplicate). congruence. }
      congruence.
  - intros H. destruct (guard p s) as [e|] eqn:Hg; [|done].
    assert (e = DuplicateSelectorPart ∨ e = OutOfOrder) as [->| ->].
    { unfold guard in Hg. destruct (_ && _); [left; congruence|].
      destruct (existsb _ _); [right; congruence|done]. }
    + apply guard_duplicate in Hg as [Hp Hsup].
      destruct (H p Hsup) as [?|[_ ?]]; [lia|congruence].
    + apply guard_out_of_order in Hg as [(q & Hlt & Hsup) _].
      destruct (H q Hsup) as [?|[-> _]]; lia.
Qed.

Lemma play_ok_iff ps : ∀ s,
  (play ps s).1 = None ↔
    Forall (λ p, ∀ q, supplied s q = true → may_follow q p) ps.*1
    ∧ StronglySorted may_follow ps.*1.
Proof.
  induction ps as [|[p v] ps IH]; intros s; cbn [play fmap list_fmap fst].
  - split; [|done]. intros _. split; constructor.
  - destruct (guard p s) as [e|] eqn:Hg.
    + split; [done|]. intros [[Hp _]%Forall_cons _].
      pose proof (proj2 (guard_None p s) Hp). congruence.
    + rewrite IH. pose proof (proj1 (guard_None p s) Hg) as Hfollow. split.
      * intros [Hall Hsorted]. split.
        -- constructor; [done|]. eapply Forall_impl; [done|].
           intros p' Hp' q Hq. apply Hp', supplied_mutate. by left.
        -- constructor; [done|]. eapply Forall_impl; [done|].
           intros p' Hp'. apply Hp', supplied_mutate. by right.
      * intros [[_ Hall]%Forall_cons Hsorted].
        apply StronglySorted_inv in Hsorted as [Hsorted Hhead].
        split; [|done]. apply Forall_forall. intros p' Hin q.
        rewrite supplied_mutate. intros [Hq| ->].
        -- by apply (proj1 (Forall_forall _ _) Hall p' Hin).
        -- by apply (proj1 (Forall_forall _ _) Hhead p' Hin).
Qed.

(** X15: a chain of part calls on a new node runs through exactly when the
    categories come in the order element, id, class, attribute,
    pseudo-class, pseudo-element, with element, id and pseudo-element at most
    once each. *)
Theorem chain_succeeds_iff ps (h0 : heap) :
  (∃ this h, build ps h0 = Ok this h) ↔ StronglySorted may_follow ps.*1.
Proof.
  rewrite build_run.
  pose proof (play_ok_iff ps constructor) as Hiff.
  destruct (play ps constructor) as [[e|] s] eqn:Hplay; cbn in Hiff.
  - split; [by intros (this & h & ?)|]. intros Hsorted.
    assert (Some e = None) by (apply Hiff; split; [|done];
      apply Forall_forall; by intros p _ []). done.
  - split; [|by eexists _, _]. intros _. by apply Hiff.
Qed.

Lemma chain_succeeds_iff_witness :
  ∃ this h,
    build [(Element, "a"); (Class, "b"); (Class, "c"); (PseudoElement, "d")]
      tr_td = Ok this h.
Proof.
  apply (proj2 (chain_succeeds_iff
                  [(Element, "a"); (Class, "b"); (Class, "c");
                   (PseudoElement, "d")] tr_td)).
  cbn. unfold may_follow.
  repeat (constructor; [|repeat (constructor; [cbn; first [left; lia|by right]|])]).
  all: repeat constructor.
Defined.

(** X16: [combine] keeps references to its operands, not copies: after a
    part call made on the first operand once the two are combined, the
    combined node renders that operand as the operand itself renders after
    the call, then the combinator, then the second operand. *)
Theorem combine_shares_operands a c b (h : heap) this h1 p v l h2 sa sb :
  cssSelectorBuilder.combine a c b h = Ok this h1 →
  Selector_part p a v h1 = Ok l h2 →
  renders_to h2 a sa → renders_to h2 b sb →
  renders_to h2 this (sa +:+ " " +:+ c +:+ " " +:+ sb).
Proof.
  rewrite builder_combine_run. intros [= <- <-].
  set (s := set_combinator c (set_selectors [a; b] constructor)).
  intros (sa0 & Hsa0 & _ & _ & ->)%part_ok Ha Hb.
  destruct (decide (a = fresh (dom h))) as [Heq|Hne].
  - rewrite <- Heq in *. rewrite lookup_insert_eq in Hsa0.
    injection Hsa0 as <-.
    replace c with (combinator (mutate p v s))
      by (by rewrite combinator_mutate).
    apply (renders_to_combined _ _ (mutate p v s) a b sa sb);
      [apply lookup_insert_eq|by rewrite selectors_mutate
      |by rewrite selectors_mutate|done..].
  - apply (renders_to_combined _ _ s a b sa sb); [|done..].
    rewrite lookup_insert_ne by done. apply lookup_insert_eq.
Qed.

Lemma combine_shares_operands_witness :
  renders_to
    (<[0 := mutate Class "odd" (mutate Element "tr" constructor)]>
       (<[2 := set_combinator ">" (set_selectors [0; 1] constructor)]> tr_td))
    2 "tr.odd > td".
Proof.
  refine (combine_shares_operands 0 ">" 1 tr_td 2
            (<[2 := set_combinator ">" (set_selectors [0; 1] constructor)]> tr_td)
            Class "odd" 0 _ "tr.odd" "td" _ _ _ _).
  - vm_compute. reflexivity.
  - vm_compute. reflexivity.
  - exists 1. vm_compute. reflexivity.
  - exists 1. vm_compute. reflexivity.
Defined.

(** X17: a node combined with itself as first operand has no render:
    [stringify] calls itself on the node without end. *)
Theorem self_combine_never_renders this c b (h : heap) l h1 :
  Selector.combine this this c b h = Ok l h1 →
  ∀ fuel, Selector.stringify fuel this h1 = OutOfFuel.
Proof.
  intros Hcombine.
  destruct (h !! this) as [s|] eqn:Hs;
    [|by rewrite combine_missing in Hcombine].
  rewrite (combine_run _ _ _ Hs) in Hcombine. injection Hcombine as <- <-.
  induction fuel as [|fuel IH]; [done|].
  rewrite stringify_S. unfold stringify_step.
  rewrite lookup_insert_eq. cbn. by rewrite IH.
Qed.

Lemma self_combine_never_renders_witness :
  Selector.stringify 1000 0
    (<[0 := set_combinator "+" (set_selectors [0; 1]
              (mutate Element "tr" constructor))]> tr_td)
  = OutOfFuel.
Proof.
  refine (self_combine_never_renders 0 "+" 1 tr_td 0 _ _ 1000).
  vm_compute. reflexivity.
Defined.

(** * The comparator of [sortCitiesArray] *)

Lemma string_compare_refl (s : string) : String.compare s s = Eq.
Proof.
  induction s as [|a s IH]; [done|]. cbn.
  unfold Ascii.compare. by rewrite N.compare_refl.
Qed.

Lemma string_compare_trans (s1 s2 s3 : string) :
  String.compare s1 s2 = Lt → String.compare s2 s3 = Lt →
  String.compare s1 s3 = Lt.
Proof.
  intros H12 H23.
  assert (String.le s1 s2) as L12 by (unfold String.le, String.leb; by rewrite H12).
  assert (String.le s2 s3) as L23 by (unfold String.le, String.leb; by rewrite H23).
  assert (String.le s1 s3) as L13 by (by etrans).
  unfold String.le, String.leb in L13.
  destruct (String.compare s1 s3) eqn:H13; [|done|done].
  apply String.compare_eq_iff in H13 as ->.
  assert (s2 = s3) as -> by (by apply (anti_symm String.le)).
  by rewrite string_compare_refl in H23.
Qed.

Lemma string_compare_gt (s1 s2 : string) :
  String.compare s1 s2 = Gt ↔ String.compare s2 s1 = Lt.
Proof.
  rewrite (String.compare_antisym s1 s2).
  destruct (String.compare s2 s1); cbn; split; congruence.
Qed.

(** X18: the comparator is consistent, as [sort] requires: swapping the
    arguments negates the result, and the result is 0 exactly when country
    and city agree once upper-cased. *)
Theorem sortCitiesArray_compare_antisym toUpperCase a b :
  sortCitiesArray_compare toUpperCase b a
  = (- sortCitiesArray_compare toUpperCase a b)%Z
  ∧ (sortCitiesArray_compare toUpperCase a b = 0%Z ↔
       toUpperCase (country a) = toUpperCase (country b)
       ∧ toUpperCase (city a) = toUpperCase (city b)).
Proof.
  unfold sortCitiesArray_compare, String.ltb.
  rewrite (String.compare_antisym (toUpperCase (country a))
             (toUpperCase (country b))).
  rewrite (String.compare_antisym (toUpperCase (city a))
             (toUpperCase (city b))).
  destruct (String.compare (toUpperCase (country b))
              (toUpperCase (country a))) eqn:Hc; cbn.
  - apply String.compare_eq_iff in Hc.
    destruct (String.compare (toUpperCase (city b))
                (toUpperCase (city a))) eqn:Hy; cbn.
    + apply String.compare_eq_iff in Hy. done.
    + split; [done|]. split; [done|]. intros [_ Heq].
      rewrite Heq, string_compare_refl in Hy. done.
    + split; [done|]. split; [done|]. intros [_ Heq].
      rewrite Heq, string_compare_refl in Hy. done.
  - split; [done|]. split; [done|]. intros [Heq _].
    rewrite Heq, string_compare_refl in Hc. done.
  - split; [done|]. split; [done|]. intros [Heq _].
    rewrite Heq, string_compare_refl in Hc. done.
Qed.

Lemma compare_le_0 toUpperCase a b :
  (sortCitiesArray_compare toUpperCase a b ≤ 0)%Z ↔
    String.compare (toUpperCase (country a)) (toUpperCase (country b)) = Lt
    ∨ (toUpperCase (country a) = toUpperCase (country b)
       ∧ String.compare (toUpperCase (city a)) (toUpperCase (city b)) ≠ Gt).
Proof.
  unfold sortCitiesArray_compare, String.ltb.
  rewrite (String.compare_antisym (toUpperCase (country b))
             (toUpperCase (country a))).
  rewrite (String.compare_antisym (toUpperCase (city b))
             (toUpperCase (city a))).
  destruct (String.compare (toUpperCase (country a))
              (toUpperCase (country b))) eqn:Hc; cbn.
  - apply String.compare_eq_iff in Hc.
    destruct (String.compare (toUpperCase (city a))
                (toUpperCase (city b))) eqn:Hy; cbn.
    + split; [|done]. intros _. by right.
    + split; [|done]. intros _. by right.
    + split; [done|]. intros [?|[_ ?]]; done.
  - split; [|done]. intros _. by left.
  - split; [done|]. intros [?|[Heq _]]; [done|].
    rewrite Heq, string_compare_refl in Hc. done.
Qed.

(** X19: the comparator orders transitively: if it does not put [a] after [b],
    nor [b] after [c], it does not put [a] after [c]. *)
Theorem sortCitiesArray_compare_trans toUpperCase a b c :
  (sortCitiesArray_compare toUpperCase a b ≤ 0)%Z →
  (sortCitiesArray_compare toUpperCase b c ≤ 0)%Z →
  (sortCitiesArray_compare toUpperCase a c ≤ 0)%Z.
Proof.
  rewrite !compare_le_0.
  intros [Hab|[Eab Yab]] [Hbc|[Ebc Ybc]].
  - left. by eapply string_compare_trans.
  - left. by rewrite <- Ebc.
  - left. by rewrite Eab.
  - right. split; [congruence|]. intros Hgt.
    apply string_compare_gt in Hgt.
    destruct (String.compare (toUpperCase (city a)) (toUpperCase (city b)))
      eqn:H1; [| |done].
    + apply String.compare_eq_iff in H1. rewrite H1 in Hgt.
      apply string_compare_gt in Hgt. done.
    + destruct (String.compare (toUpperCase (city b)) (toUpperCase (city c)))
        eqn:H2; [| |done].
      * apply String.compare_eq_iff in H2. rewrite <- H2 in Hgt.
        apply string_compare_gt in Hgt. congruence.
      * pose proof (string_compare_trans _ _ _ H1 H2) as H3.
        apply string_compare_gt in Hgt. congruence.
Qed.

Lemma sortCitiesArray_compare_trans_witness :
  (sortCitiesArray_compare (λ s, s) (mkCity "BELARUS" "BREST")
     (mkCity "RUSSIA" "MOSCOW") ≤ 0)%Z.
Proof.
  apply (sortCitiesArray_compare_trans (λ s, s) (mkCity "BELARUS" "BREST")
           (mkCity "POLAND" "KRAKOW") (mkCity "RUSSIA" "MOSCOW"));
    vm_compute; discriminate.
Defined.
